(** * SBDP: the Simple Binary Dictionary Protocol of [sbdp.py]

    A shallow embedding of the encoder, the decoder and the socket
    transport of [sbdp.py], followed by the properties of the codec
    and of the transport.

    Conventions of the embedding:
    - a Python [bytes] object is a [list byte];
    - a Python [str] is the list of its code points ([list Z]); the
      library calls [str.encode('utf-8')] and [bytes.decode('utf-8')]
      are modelled by [Utf8.encode] and [Utf8.decode] (strict error
      handler, as in the source);
    - a Python [int] is a [Z]; a Python [float] is the 64-bit pattern of
      its IEEE-754 binary64 representation, which is what
      [struct.pack('!d', _)] writes and [struct.unpack('!d', _)] reads;
    - a call has an [outcome]: it [Return]s a value or [Raise]s one of
      the exceptions of the [error] type;
    - a [dict] is an association list in insertion order. *)

From Stdlib Require Import String.
From Stdlib Require Import ZArith List Lia Bool PeanoNat.
From Stdlib Require Import Strings.Byte.
Import ListNotations.

Open Scope Z_scope.

(* ================================================================== *)
(** ** Exceptions and results *)

(** The exceptions the module can raise.  The three [ValueError]s of
    [decode_message] and the two [RuntimeError]s of [recv_message] are
    distinguished by their message in the source. *)
Inductive error : Type :=
| ValueError_unknown_type        (* encode_message: "不明な型: ..." *)
| ValueError_too_short           (* decode_message: "メッセージが短すぎます" *)
| ValueError_incomplete          (* decode_message: "不完全なメッセージです" *)
| ValueError_unknown_type_code   (* decode_message: "不明な型コード" *)
| struct_error                   (* struct.error, from struct.pack / struct.unpack *)
| UnicodeEncodeError             (* str.encode('utf-8') *)
| UnicodeDecodeError             (* bytes.decode('utf-8') *)
| RuntimeError_header            (* recv_message: "ヘッダの受信に失敗しました" *)
| RuntimeError_payload           (* recv_message: "ペイロードの受信に失敗しました" *)
| loop_budget_exhausted.         (* not a Python exception: the [while] loop of the
                                    model ran out of its iteration budget; shown
                                    below never to come out of [decode_message] *)

(** What a call comes to: it returns a value or raises an exception. *)
Inductive outcome (A : Type) : Type :=
| Return (a : A)
| Raise (e : error).
Arguments Return {A} a.
Arguments Raise {A} e.

Definition bind {A B : Type} (r : outcome A) (k : A -> outcome B) : outcome B :=
  match r with
  | Return a => k a
  | Raise e => Raise e
  end.

Notation "x <- r ;; k" := (bind r (fun x => k))
  (at level 61, r at next level, right associativity).
Notation "' p <- r ;; k" := (bind r (fun p => k))
  (at level 61, p pattern, r at next level, right associativity).

(* ================================================================== *)
(** ** Bytes *)

Definition bytes := list byte.

Definition Z_of_byte (b : byte) : Z := Z.of_N (Byte.to_N b).

Definition byte_of_Z (z : Z) : byte :=
  match Byte.of_N (Z.to_N z) with
  | Some b => b
  | None => x00
  end.

(** Python's [b[i:j]] for [0 <= i <= j]: out-of-range bounds are clipped
    to the length, never an error. *)
Definition slice (b : bytes) (i j : nat) : bytes :=
  firstn (j - i) (skipn i b).

(** [len(b)] as a Python int. *)
Definition len {A : Type} (l : list A) : Z := Z.of_nat (length l).

(** Big-endian (network order) unsigned representation on [n] bytes. *)
Fixpoint to_bytes_be (n : nat) (v : Z) : bytes :=
  match n with
  | O => []
  | S n' => to_bytes_be n' (v / 256) ++ [byte_of_Z (v mod 256)]
  end.

Definition from_bytes_be (b : bytes) : Z :=
  fold_left (fun acc x => acc * 256 + Z_of_byte x) b 0.

(* ================================================================== *)
(** ** The [struct] formats used by the module

    [struct.pack(fmt, v)] raises [struct.error] when [v] is outside the
    range of the format; [struct.unpack(fmt, buf)] raises [struct.error]
    unless [len(buf)] is exactly the size of the format. *)

(* Protocol numeric fields are encoded in network byte order (big endian). *)
Inductive format : Type :=
| FMT_U8     (* '!B' *)
| FMT_U16    (* '!H' *)
| FMT_U32    (* '!I' *)
| FMT_I64    (* '!q' *)
| FMT_U64    (* '!Q' *)
| FMT_F64.   (* '!d' *)

Module Struct.

Definition pack_unsigned (size : nat) (v : Z) : outcome bytes :=
  if (0 <=? v) && (v <? 256 ^ Z.of_nat size)
  then Return (to_bytes_be size v)
  else Raise struct_error.

Definition unpack_unsigned (size : nat) (buf : bytes) : outcome Z :=
  if Nat.eqb (length buf) size
  then Return (from_bytes_be buf)
  else Raise struct_error.

(* '!q': two's complement on 64 bits *)
Definition pack_I64 (v : Z) : outcome bytes :=
  if (- 2 ^ 63 <=? v) && (v <? 2 ^ 63)
  then Return (to_bytes_be 8 (v mod 2 ^ 64))
  else Raise struct_error.

Definition unpack_I64 (buf : bytes) : outcome Z :=
  u <- unpack_unsigned 8 buf ;;
  Return (if u <? 2 ^ 63 then u else u - 2 ^ 64).

(* '!d': the binary64 bit pattern, most significant byte first *)
Definition pack_F64 (bits : Z) : outcome bytes :=
  Return (to_bytes_be 8 bits).

(** [struct.pack(fmt, v)] *)
Definition pack (fmt : format) (v : Z) : outcome bytes :=
  match fmt with
  | FMT_U8 => pack_unsigned 1 v
  | FMT_U16 => pack_unsigned 2 v
  | FMT_U32 => pack_unsigned 4 v
  | FMT_I64 => pack_I64 v
  | FMT_U64 => pack_unsigned 8 v
  | FMT_F64 => pack_F64 v
  end.

(** [struct.unpack(fmt, buf)[0]] *)
Definition unpack (fmt : format) (buf : bytes) : outcome Z :=
  match fmt with
  | FMT_U8 => unpack_unsigned 1 buf
  | FMT_U16 => unpack_unsigned 2 buf
  | FMT_U32 => unpack_unsigned 4 buf
  | FMT_I64 => unpack_I64 buf
  | FMT_U64 => unpack_unsigned 8 buf
  | FMT_F64 => unpack_unsigned 8 buf
  end.

End Struct.

(* ================================================================== *)
(** ** UTF-8, as [str.encode('utf-8')] and [bytes.decode('utf-8')]

    A [str] is a sequence of code points in [0, 0x10FFFF]; surrogates
    (0xD800..0xDFFF) may occur in a [str] but have no UTF-8 encoding.
    Decoding is strict: truncated and overlong sequences, stray
    continuation bytes, encoded surrogates and values above 0x10FFFF
    raise [UnicodeDecodeError]. *)

Definition str := list Z.

Definition is_code_point (c : Z) : Prop := 0 <= c <= 0x10FFFF.
Definition is_str (s : str) : Prop := Forall is_code_point s.

Fixpoint str_eqb (a b : str) : bool :=
  match a, b with
  | [], [] => true
  | x :: a', y :: b' => (x =? y) && str_eqb a' b'
  | _, _ => false
  end.

Module Utf8.

Definition is_surrogate (c : Z) : bool := (0xD800 <=? c) && (c <=? 0xDFFF).

Definition encode_char (c : Z) : outcome bytes :=
  if c <? 0x80 then
    Return [byte_of_Z c]
  else if c <? 0x800 then
    Return [byte_of_Z (0xC0 + c / 64); byte_of_Z (0x80 + c mod 64)]
  else if c <? 0x10000 then
    if is_surrogate c then Raise UnicodeEncodeError
    else Return [byte_of_Z (0xE0 + c / 4096);
                 byte_of_Z (0x80 + (c / 64) mod 64);
                 byte_of_Z (0x80 + c mod 64)]
  else
    Return [byte_of_Z (0xF0 + c / 262144);
            byte_of_Z (0x80 + (c / 4096) mod 64);
            byte_of_Z (0x80 + (c / 64) mod 64);
            byte_of_Z (0x80 + c mod 64)].

Fixpoint encode (s : str) : outcome bytes :=
  match s with
  | [] => Return []
  | c :: s' =>
      b <- encode_char c ;;
      b' <- encode s' ;;
      Return (b ++ b')
  end.

(** A continuation byte, 10xxxxxx. *)
Definition is_cont (b : byte) : bool :=
  (0x80 <=? Z_of_byte b) && (Z_of_byte b <? 0xC0).

Definition cont (b : byte) : Z := Z_of_byte b - 0x80.

Fixpoint decode (b : bytes) : outcome str :=
  match b with
  | [] => Return []
  | b0 :: t0 =>
      let c0 := Z_of_byte b0 in
      if c0 <? 0x80 then
        s <- decode t0 ;; Return (c0 :: s)
      else if c0 <? 0xC0 then
        Raise UnicodeDecodeError
      else if c0 <? 0xE0 then
        match t0 with
        | b1 :: t1 =>
            let c := (c0 - 0xC0) * 64 + cont b1 in
            if is_cont b1 && (0x80 <=? c)
            then s <- decode t1 ;; Return (c :: s)
            else Raise UnicodeDecodeError
        | _ => Raise UnicodeDecodeError
        end
      else if c0 <? 0xF0 then
        match t0 with
        | b1 :: b2 :: t2 =>
            let c := (c0 - 0xE0) * 4096 + cont b1 * 64 + cont b2 in
            if is_cont b1 && is_cont b2 && (0x800 <=? c) && negb (is_surrogate c)
            then s <- decode t2 ;; Return (c :: s)
            else Raise UnicodeDecodeError
        | _ => Raise UnicodeDecodeError
        end
      else if c0 <? 0xF8 then
        match t0 with
        | b1 :: b2 :: b3 :: t3 =>
            let c := (c0 - 0xF0) * 262144 + cont b1 * 4096 + cont b2 * 64 + cont b3 in
            if is_cont b1 && is_cont b2 && is_cont b3
               && (0x10000 <=? c) && (c <=? 0x10FFFF)
            then s <- decode t3 ;; Return (c :: s)
            else Raise UnicodeDecodeError
        | _ => Raise UnicodeDecodeError
        end
      else Raise UnicodeDecodeError
  end.

End Utf8.

(* ================================================================== *)
(** ** Messages

    A message is a [dict] from [str] keys to [(type_str, value)] tuples.
    A tuple is embedded with its value at the Python type its tag asks
    for, as the docstring of [encode_message] has it; [T_other typ]
    stands for a tuple whose tag is none of the five. *)

Inductive tagged : Type :=
| T_int64 (value : Z)          (* ("int64", value) *)
| T_uint64 (value : Z)         (* ("uint64", value) *)
| T_float64 (bits : Z)         (* ("float64", value), value given by its bits *)
| T_string (value : str)       (* ("string", value) *)
| T_binary (value : bytes)     (* ("binary", value) *)
| T_other (typ : string).      (* any other tag *)

(** An insertion-ordered dictionary. *)
Definition dict := list (str * tagged).

(** [d[key] = v]: an existing key keeps its place and takes the new
    value, a new key goes last. *)
Fixpoint dict_set (d : dict) (key : str) (v : tagged) : dict :=
  match d with
  | [] => [(key, v)]
  | (k, v') :: d' =>
      if str_eqb k key then (k, v) :: d' else (k, v') :: dict_set d' key v
  end.

Fixpoint dict_get (d : dict) (key : str) : option tagged :=
  match d with
  | [] => None
  | (k, v) :: d' => if str_eqb k key then Some v else dict_get d' key
  end.

(** [d.items()], in insertion order. *)
Definition items (d : dict) : list (str * tagged) := d.

Definition keys (d : dict) : list str := map fst d.

(* 型コードの定義 *)
Definition TYPE_INT64   : Z := 1.
Definition TYPE_UINT64  : Z := 2.
Definition TYPE_FLOAT64 : Z := 3.
Definition TYPE_STRING  : Z := 4.
Definition TYPE_BINARY  : Z := 5.

(* ================================================================== *)
(** ** [encode_message] *)

(** The type code and value parts appended for one tuple (the
    [if]/[elif] chain of the loop body). *)
Definition encode_value (parts : list bytes) (tv : tagged) : outcome (list bytes) :=
  match tv with
  | T_int64 value =>
      tc <- Struct.pack FMT_U8 TYPE_INT64 ;;
      vb <- Struct.pack FMT_I64 value ;;
      Return (parts ++ [tc; vb])
  | T_uint64 value =>
      tc <- Struct.pack FMT_U8 TYPE_UINT64 ;;
      vb <- Struct.pack FMT_U64 value ;;
      Return (parts ++ [tc; vb])
  | T_float64 value =>
      tc <- Struct.pack FMT_U8 TYPE_FLOAT64 ;;
      vb <- Struct.pack FMT_F64 value ;;
      Return (parts ++ [tc; vb])
  | T_string value =>
      tc <- Struct.pack FMT_U8 TYPE_STRING ;;
      value_bytes <- Utf8.encode value ;;
      vl <- Struct.pack FMT_U32 (len value_bytes) ;;
      Return (parts ++ [tc; vl; value_bytes])
  | T_binary value =>
      tc <- Struct.pack FMT_U8 TYPE_BINARY ;;
      vl <- Struct.pack FMT_U32 (len value) ;;
      Return (parts ++ [tc; vl; value])
  | T_other _ =>
      Raise ValueError_unknown_type
  end.

(** The [for key, (typ, value) in data.items()] loop, threading [parts]. *)
Fixpoint encode_fields (its : list (str * tagged)) (parts : list bytes)
  : outcome (list bytes) :=
  match its with
  | [] => Return parts
  | (key, tv) :: rest =>
      key_bytes <- Utf8.encode key ;;
      let key_length := len key_bytes in
      kl <- Struct.pack FMT_U16 key_length ;;
      parts <- encode_value (parts ++ [kl; key_bytes]) tv ;;
      encode_fields rest parts
  end.

Definition encode_message (data : dict) : outcome bytes :=
  parts <- encode_fields (items data) [] ;;
  let payload := concat parts in
  header <- Struct.pack FMT_U32 (len payload) ;;
  Return (header ++ payload).

(* ================================================================== *)
(** ** [decode_message] *)

(** One turn of the [while offset < len(payload)] loop: from the cursor
    and the dictionary built so far to the next cursor and dictionary. *)
Definition decode_field (payload : bytes) (offset : nat) (result : dict)
  : outcome (nat * dict) :=
  key_length <- Struct.unpack FMT_U16 (slice payload offset (offset + 2)) ;;
  let offset := (offset + 2)%nat in
  key <- Utf8.decode (slice payload offset (offset + Z.to_nat key_length)) ;;
  let offset := (offset + Z.to_nat key_length)%nat in
  type_code <- Struct.unpack FMT_U8 (slice payload offset (offset + 1)) ;;
  let offset := (offset + 1)%nat in
  if type_code =? TYPE_INT64 then
    value <- Struct.unpack FMT_I64 (slice payload offset (offset + 8)) ;;
    let offset := (offset + 8)%nat in
    Return (offset, dict_set result key (T_int64 value))
  else if type_code =? TYPE_UINT64 then
    value <- Struct.unpack FMT_U64 (slice payload offset (offset + 8)) ;;
    let offset := (offset + 8)%nat in
    Return (offset, dict_set result key (T_uint64 value))
  else if type_code =? TYPE_FLOAT64 then
    value <- Struct.unpack FMT_F64 (slice payload offset (offset + 8)) ;;
    let offset := (offset + 8)%nat in
    Return (offset, dict_set result key (T_float64 value))
  else if type_code =? TYPE_STRING then
    str_length <- Struct.unpack FMT_U32 (slice payload offset (offset + 4)) ;;
    let offset := (offset + 4)%nat in
    value <- Utf8.decode (slice payload offset (offset + Z.to_nat str_length)) ;;
    let offset := (offset + Z.to_nat str_length)%nat in
    Return (offset, dict_set result key (T_string value))
  else if type_code =? TYPE_BINARY then
    bin_length <- Struct.unpack FMT_U32 (slice payload offset (offset + 4)) ;;
    let offset := (offset + 4)%nat in
    let value := slice payload offset (offset + Z.to_nat bin_length) in
    let offset := (offset + Z.to_nat bin_length)%nat in
    Return (offset, dict_set result key (T_binary value))
  else
    Raise ValueError_unknown_type_code.

(** The [while] loop.  Every turn moves the cursor forward by at least
    three bytes, so [budget] turns suffice when [budget] is the length
    of the payload ([decode_loop_budget] below). *)
Fixpoint decode_loop (budget : nat) (payload : bytes) (offset : nat) (result : dict)
  : outcome dict :=
  if (offset <? length payload)%nat then
    match budget with
    | O => Raise loop_budget_exhausted
    | S budget' =>
        '(offset', result') <- decode_field payload offset result ;;
        decode_loop budget' payload offset' result'
    end
  else Return result.

Definition decode_message (message_bytes : bytes) : outcome dict :=
  if len message_bytes <? 4 then Raise ValueError_too_short else
  total_length <- Struct.unpack FMT_U32 (slice message_bytes 0 4) ;;
  if len message_bytes <? 4 + total_length then Raise ValueError_incomplete else
  let payload := slice message_bytes 4 (4 + Z.to_nat total_length) in
  decode_loop (length payload) payload 0 [].

(* ================================================================== *)
(** ** Transport

    A connected socket is seen from the receiving side as the sequence
    of chunks its [recv] calls will deliver.  [recv(bufsize)] hands out
    at most [bufsize] bytes of the chunk at the head and leaves the rest
    of it for the next call; an empty chunk is the empty read by which
    a closed peer shows, and so is the end of the sequence. *)

Definition socket := list bytes.

Definition recv (sock : socket) (bufsize : nat) : bytes * socket :=
  match sock with
  | [] => ([], [])
  | chunk :: sock' =>
      if (length chunk <=? bufsize)%nat then (chunk, sock')
      else (firstn bufsize chunk, skipn bufsize chunk :: sock')
  end.

(** The [while len(data) < n] loop of [recvall].  A turn either returns
    or adds at least one byte to [data], so [n] turns are enough. *)
Fixpoint recvall_loop (budget : nat) (sock : socket) (n : nat) (data : bytes)
  : bytes * socket :=
  if (length data <? n)%nat then
    match budget with
    | O => (data, sock)
    | S budget' =>
        let '(packet, sock') := recv sock (n - length data) in
        match packet with
        | [] => (data, sock')
        | _ => recvall_loop budget' sock' n (data ++ packet)
        end
    end
  else (data, sock).

Definition recvall (sock : socket) (n : nat) : bytes * socket :=
  recvall_loop n sock n [].

Definition recv_message (sock : socket) : outcome dict * socket :=
  let '(header, sock) := recvall sock 4 in
  if len header <? 4 then (Raise RuntimeError_header, sock) else
  match Struct.unpack FMT_U32 header with
  | Raise e => (Raise e, sock)
  | Return total_length =>
      let '(payload, sock) := recvall sock (Z.to_nat total_length) in
      if len payload <? total_length then (Raise RuntimeError_payload, sock)
      else (decode_message (header ++ payload), sock)
  end.

(* ================================================================== *)
(** ** Valid messages and frames

    The bounds of the wire format, as checks on a message: what
    [encode_message] needs in order to return. *)

(** A Unicode scalar value: a code point that is not a surrogate. *)
Definition is_scalar (c : Z) : bool :=
  (0 <=? c) && (c <=? 0x10FFFF) && negb (Utf8.is_surrogate c).

(** A [str] that [str.encode('utf-8')] accepts. *)
Definition encodable (s : str) : bool := forallb is_scalar s.

Definition utf8_size_char (c : Z) : Z :=
  if c <? 0x80 then 1 else if c <? 0x800 then 2 else if c <? 0x10000 then 3 else 4.

(** The number of bytes of the UTF-8 encoding of [s]. *)
Definition utf8_len (s : str) : Z :=
  fold_right (fun c n => utf8_size_char c + n) 0 s.

Definition valid_key (key : str) : bool :=
  encodable key && (utf8_len key <=? 65535).

Definition valid_value (tv : tagged) : bool :=
  match tv with
  | T_int64 value => (- 2 ^ 63 <=? value) && (value <? 2 ^ 63)
  | T_uint64 value => (0 <=? value) && (value <? 2 ^ 64)
  | T_float64 bits => (0 <=? bits) && (bits <? 2 ^ 64)
  | T_string value => encodable value && (utf8_len value <=? 2 ^ 32 - 1)
  | T_binary value => len value <=? 2 ^ 32 - 1
  | T_other _ => false
  end.

Definition valid_field (f : str * tagged) : bool :=
  valid_key (fst f) && valid_value (snd f).

Definition valid_fields (its : list (str * tagged)) : bool :=
  forallb valid_field its.

(** The size of a field on the wire: key length, key, type code, value. *)
Definition value_size (tv : tagged) : Z :=
  match tv with
  | T_int64 _ | T_uint64 _ | T_float64 _ => 8
  | T_string value => 4 + utf8_len value
  | T_binary value => 4 + len value
  | T_other _ => 0
  end.

Definition field_size (f : str * tagged) : Z :=
  2 + utf8_len (fst f) + 1 + value_size (snd f).

Definition payload_size (its : list (str * tagged)) : Z :=
  fold_right (fun f n => field_size f + n) 0 its.

(** The dictionary obtained by assigning the fields in order. *)
Definition assign_all (its : list (str * tagged)) (result : dict) : dict :=
  fold_left (fun d f => dict_set d (fst f) (snd f)) its result.

(** ** The states of the parsing loop

    [reaches payload offset result]: the [while] loop of
    [decode_message], started on [payload], comes to its test with this
    cursor and this dictionary. *)
Inductive reaches (payload : bytes) : nat -> dict -> Prop :=
| reaches_start :
    reaches payload 0 []
| reaches_turn (offset : nat) (result : dict) (offset' : nat) (result' : dict) :
    reaches payload offset result ->
    (offset < length payload)%nat ->
    decode_field payload offset result = Return (offset', result') ->
    reaches payload offset' result'.

(** [covers message_bytes payload]: the buffer holds the four bytes of
    the length and the payload they declare (the two tests at the head
    of [decode_message] pass), and [payload] is the slice parsed. *)
Definition covers (message_bytes payload : bytes) : Prop :=
  exists total_length,
    4 <= len message_bytes /\
    Struct.unpack FMT_U32 (slice message_bytes 0 4) = Return total_length /\
    4 + total_length <= len message_bytes /\
    payload = slice message_bytes 4 (4 + Z.to_nat total_length).

(** ** The bytes a socket has to give

    What the chunks hold before the first empty read. *)
Fixpoint available (sock : socket) : bytes :=
  match sock with
  | [] => []
  | [] :: _ => []
  | chunk :: sock' => chunk ++ available sock'
  end.

(** A valid message: every field within the bounds of the format and
    the payload length within the 32 bits of the header. *)
Definition valid_message (m : dict) : bool :=
  valid_fields (items m) && (payload_size (items m) <=? 2 ^ 32 - 1).

(** The frame that carries the fields [its] in this order, whether or
    not a key comes twice among them: the encoder run over the fields. *)
Definition frame_of (its : list (str * tagged)) : outcome bytes :=
  encode_message its.

(** [p] is a strict prefix of [f]. *)
Definition strict_prefix (p f : bytes) : Prop :=
  exists rest, rest <> [] /\ f = p ++ rest.

(** The keys of a Python [dict] are pairwise distinct. *)
Fixpoint is_dict (d : dict) : bool :=
  match d with
  | [] => true
  | (k, _) :: d' => negb (existsb (str_eqb k) (keys d')) && is_dict d'
  end.

(** A message with one binary value of 2^32 - 1 bytes under the empty key. *)
Definition oversized_binary : bytes := repeat x00 (Z.to_nat 4294967295).
Definition oversized_message : dict := [([], T_binary oversized_binary)].

(** ** Short reads

    [short_read payload offset e]: the turn of the loop that starts at
    [offset] comes to a read for which the bytes left in [payload] do
    not suffice, the read being the key length, the key, the type code,
    an 8-byte scalar or the 4-byte length of a string or binary value;
    [e] is the exception the turn then raises. *)
Inductive short_read (payload : bytes) (offset : nat) : error -> Prop :=
| short_key_length :
    (offset < length payload)%nat ->
    (length payload < offset + 2)%nat ->
    short_read payload offset struct_error
| short_key_undecodable (key_length : Z) :
    Struct.unpack FMT_U16 (slice payload offset (offset + 2)) = Return key_length ->
    (length payload < offset + 2 + Z.to_nat key_length)%nat ->
    Utf8.decode (slice payload (offset + 2) (offset + 2 + Z.to_nat key_length))
    = Raise UnicodeDecodeError ->
    short_read payload offset UnicodeDecodeError
| short_key_decodable (key_length : Z) (key : str) :
    Struct.unpack FMT_U16 (slice payload offset (offset + 2)) = Return key_length ->
    (length payload < offset + 2 + Z.to_nat key_length)%nat ->
    Utf8.decode (slice payload (offset + 2) (offset + 2 + Z.to_nat key_length))
    = Return key ->
    short_read payload offset struct_error
| short_type_code (key_length : Z) (key : str) :
    Struct.unpack FMT_U16 (slice payload offset (offset + 2)) = Return key_length ->
    (length payload = offset + 2 + Z.to_nat key_length)%nat ->
    Utf8.decode (slice payload (offset + 2) (offset + 2 + Z.to_nat key_length))
    = Return key ->
    short_read payload offset struct_error
| short_scalar (key_length : Z) (key : str) (type_code : Z) :
    let at_type := (offset + 2 + Z.to_nat key_length)%nat in
    Struct.unpack FMT_U16 (slice payload offset (offset + 2)) = Return key_length ->
    Utf8.decode (slice payload (offset + 2) at_type) = Return key ->
    Struct.unpack FMT_U8 (slice payload at_type (at_type + 1)) = Return type_code ->
    type_code = TYPE_INT64 \/ type_code = TYPE_UINT64 \/ type_code = TYPE_FLOAT64 ->
    (length payload < at_type + 1 + 8)%nat ->
    short_read payload offset struct_error
| short_value_length (key_length : Z) (key : str) (type_code : Z) :
    let at_type := (offset + 2 + Z.to_nat key_length)%nat in
    Struct.unpack FMT_U16 (slice payload offset (offset + 2)) = Return key_length ->
    Utf8.decode (slice payload (offset + 2) at_type) = Return key ->
    Struct.unpack FMT_U8 (slice payload at_type (at_type + 1)) = Return type_code ->
    type_code = TYPE_STRING \/ type_code = TYPE_BINARY ->
    (length payload < at_type + 1 + 4)%nat ->
    short_read payload offset struct_error.

(** [short_data payload offset]: the turn that starts at [offset] reads
    the length of a string or binary value, and the payload has fewer
    bytes left than that length. *)
Definition short_data (payload : bytes) (offset : nat) : Prop :=
  exists key_length key type_code data_length,
    let at_type := (offset + 2 + Z.to_nat key_length)%nat in
    Struct.unpack FMT_U16 (slice payload offset (offset + 2)) = Return key_length /\
    Utf8.decode (slice payload (offset + 2) at_type) = Return key /\
    Struct.unpack FMT_U8 (slice payload at_type (at_type + 1)) = Return type_code /\
    (type_code = TYPE_STRING \/ type_code = TYPE_BINARY) /\
    Struct.unpack FMT_U32 (slice payload (at_type + 1) (at_type + 1 + 4))
    = Return data_length /\
    (length payload < at_type + 1 + 4 + Z.to_nat data_length)%nat.

(** A key of 65536 letters "a": one byte more than two bytes can count. *)
Definition long_key : str := repeat 97 (Z.to_nat 65536).
Definition long_key_bytes : bytes := repeat x61 (Z.to_nat 65536).

(* ================================================================== *)
(** ** Sending

    The sending side of a connected socket is seen as the bytes written
    to it so far; [sock.sendall(data)] writes all of [data] after them. *)

Definition sendall (sock : bytes) (data : bytes) : bytes := sock ++ data.

Definition send_message (sock : bytes) (data : dict) : outcome unit * bytes :=
  match encode_message data with
  | Raise e => (Raise e, sock)
  | Return message => (Return tt, sendall sock message)
  end.

(* ================================================================== *)
(** ** The usage example of the module ([__main__])

    The data path of [client] and [server]: connection set-up, threads
    and [print] are left out.  An end of the connection is what it is
    still to receive and what it has written.  [client] is given the
    message it nests, which the source fixes to [inner_message]; its
    last step, receiving the response, is [client_response], since the
    server runs between the two. *)

Record endpoint : Type := { incoming : socket; outgoing : bytes }.

(* "payload" *)
Definition payload_key : str := [112; 97; 121; 108; 111; 97; 100].
(* "status" *)
Definition status_key : str := [115; 116; 97; 116; 117; 115].

(* {"uid": ("uint64", 9876543210), "note": ("string", "nested payload")} *)
Definition inner_message : dict :=
  [([117; 105; 100], T_uint64 9876543210);
   ([110; 111; 116; 101],
    T_string [110; 101; 115; 116; 101; 100; 32; 112; 97; 121; 108; 111; 97; 100])].

(* {"status": ("string", "OK")} *)
Definition response : dict := [(status_key, T_string [79; 75])].

(** [client], up to [send_message(cli, outer_message)]. *)
Definition client_request (cli : endpoint) (inner_message : dict)
  : outcome unit * endpoint :=
  match encode_message inner_message with
  | Raise e => (Raise e, cli)
  | Return inner_bytes =>
      let outer_message := [(payload_key, T_binary inner_bytes)] in
      let '(r, out) := send_message (outgoing cli) outer_message in
      (r, {| incoming := incoming cli; outgoing := out |})
  end.

(** [client], [resp = recv_message(cli)]. *)
Definition client_response (cli : endpoint) : outcome dict * endpoint :=
  let '(resp, inc) := recv_message (incoming cli) in
  (resp, {| incoming := inc; outgoing := outgoing cli |}).

(** [server], from [recv_message(conn)] on.  The result is [inner_msg],
    or [None] where the source prints that no nested message was found. *)
Definition server (conn : endpoint) : outcome (option dict) * endpoint :=
  let '(r, inc) := recv_message (incoming conn) in
  let conn := {| incoming := inc; outgoing := outgoing conn |} in
  match r with
  | Raise e => (Raise e, conn)
  | Return outer_msg =>
      let found :=
        match dict_get outer_msg payload_key with
        | Some (T_binary inner_bytes) =>
            inner_msg <- decode_message inner_bytes ;; Return (Some inner_msg)
        | _ => Return None
        end in
      match found with
      | Raise e => (Raise e, conn)
      | Return inner_msg =>
          let '(s, out) := send_message (outgoing conn) response in
          match s with
          | Raise e => (Raise e, {| incoming := inc; outgoing := out |})
          | Return _ => (Return inner_msg, {| incoming := inc; outgoing := out |})
          end
      end
  end.

(* ================================================================== *)
(** ** Well-typed messages

    What Python guarantees of the values of a message: the code points
    of a [str] lie in [0, 0x10FFFF] and a [float] has 64 bits. *)

Definition in_unicode (c : Z) : bool := (0 <=? c) && (c <=? 0x10FFFF).

Definition well_typed_value (tv : tagged) : bool :=
  match tv with
  | T_float64 bits => (0 <=? bits) && (bits <? 2 ^ 64)
  | T_string value => forallb in_unicode value
  | _ => true
  end.

Definition well_typed (m : dict) : bool :=
  forallb (fun f => forallb in_unicode (fst f) && well_typed_value (snd f)) m.

(* ================================================================== *)
(** * Properties *)

(** ** Bytes and big-endian integers *)

Lemma Z_of_byte_range (b : byte) : 0 <= Z_of_byte b < 256.
Proof.
  unfold Z_of_byte. pose proof (Byte.to_N_bounded b). lia.
Qed.

Lemma byte_of_Z_of_byte (b : byte) : byte_of_Z (Z_of_byte b) = b.
Proof.
  unfold byte_of_Z, Z_of_byte. now rewrite N2Z.id, Byte.of_to_N.
Qed.

Lemma Z_of_byte_of_Z (z : Z) : 0 <= z < 256 -> Z_of_byte (byte_of_Z z) = z.
Proof.
  intros Hz. unfold byte_of_Z, Z_of_byte.
  destruct (Byte.of_N (Z.to_N z)) as [b|] eqn:E.
  - apply Byte.to_of_N in E. lia.
  - apply Byte.of_N_None_iff in E. lia.
Qed.

Lemma len_app {A : Type} (a b : list A) : len (a ++ b) = len a + len b.
Proof. unfold len. rewrite length_app. lia. Qed.

Lemma len_nonneg {A : Type} (a : list A) : 0 <= len a.
Proof. unfold len. lia. Qed.

Lemma to_bytes_be_length (n : nat) (v : Z) : length (to_bytes_be n v) = n.
Proof.
  revert v. induction n as [|n IH]; intros v; simpl; [reflexivity|].
  rewrite length_app, IH. simpl. lia.
Qed.

Lemma from_bytes_be_snoc (a : bytes) (x : byte) :
  from_bytes_be (a ++ [x]) = from_bytes_be a * 256 + Z_of_byte x.
Proof. unfold from_bytes_be. now rewrite fold_left_app. Qed.

Lemma from_to_bytes_be (n : nat) (v : Z) :
  0 <= v < 256 ^ Z.of_nat n -> from_bytes_be (to_bytes_be n v) = v.
Proof.
  revert v. induction n as [|n IH]; intros v Hv.
  - simpl in *. unfold from_bytes_be. simpl. lia.
  - cbn [to_bytes_be]. rewrite from_bytes_be_snoc.
    rewrite Nat2Z.inj_succ, Z.pow_succ_r in Hv by lia.
    rewrite IH, Z_of_byte_of_Z.
    + pose proof (Z.div_mod v 256). lia.
    + apply Z.mod_pos_bound. lia.
    + split; [apply Z.div_pos; lia | apply Z.div_lt_upper_bound; lia].
Qed.

Lemma from_bytes_be_range (b : bytes) :
  0 <= from_bytes_be b < 256 ^ len b.
Proof.
  induction b as [|x b IH] using rev_ind.
  - unfold from_bytes_be, len. simpl. lia.
  - rewrite from_bytes_be_snoc, len_app.
    change (len [x]) with 1. pose proof (len_nonneg b).
    rewrite Z.pow_add_r, Z.pow_1_r by lia.
    pose proof (Z_of_byte_range x). nia.
Qed.

(** ** [struct]: unpacking what was packed *)

Lemma pack_unsigned_inv (size : nat) (v : Z) (b : bytes) :
  Struct.pack_unsigned size v = Return b ->
  0 <= v < 256 ^ Z.of_nat size /\ b = to_bytes_be size v.
Proof.
  unfold Struct.pack_unsigned.
  destruct (0 <=? v) eqn:E1; destruct (v <? 256 ^ Z.of_nat size) eqn:E2;
    simpl; intros H; inversion H; subst.
  split; [lia | reflexivity].
Qed.

Lemma pack_unsigned_ok (size : nat) (v : Z) :
  0 <= v < 256 ^ Z.of_nat size ->
  Struct.pack_unsigned size v = Return (to_bytes_be size v).
Proof.
  intros [H1 H2]. unfold Struct.pack_unsigned.
  apply Z.leb_le in H1. apply Z.ltb_lt in H2. now rewrite H1, H2.
Qed.

Lemma pack_unsigned_length (size : nat) (v : Z) (b : bytes) :
  Struct.pack_unsigned size v = Return b -> length b = size.
Proof.
  intros H. apply pack_unsigned_inv in H as [_ ->]. apply to_bytes_be_length.
Qed.

Lemma unpack_pack_unsigned (size : nat) (v : Z) (b : bytes) :
  Struct.pack_unsigned size v = Return b ->
  Struct.unpack_unsigned size b = Return v.
Proof.
  intros H. apply pack_unsigned_inv in H as [Hv ->].
  unfold Struct.unpack_unsigned.
  rewrite to_bytes_be_length, Nat.eqb_refl, from_to_bytes_be; auto.
Qed.

Lemma unpack_unsigned_short (size : nat) (b : bytes) :
  length b <> size -> Struct.unpack_unsigned size b = Raise struct_error.
Proof.
  intros H. unfold Struct.unpack_unsigned.
  apply Nat.eqb_neq in H. now rewrite H.
Qed.

Lemma pack_I64_inv (v : Z) (b : bytes) :
  Struct.pack FMT_I64 v = Return b ->
  - 2 ^ 63 <= v < 2 ^ 63 /\ b = to_bytes_be 8 (v mod 2 ^ 64).
Proof.
  unfold Struct.pack, Struct.pack_I64.
  destruct (- 2 ^ 63 <=? v) eqn:E1; destruct (v <? 2 ^ 63) eqn:E2;
    simpl; intros H; inversion H; subst.
  split; [lia | reflexivity].
Qed.

Lemma unpack_pack_I64 (v : Z) (b : bytes) :
  Struct.pack FMT_I64 v = Return b -> Struct.unpack FMT_I64 b = Return v.
Proof.
  intros H. apply pack_I64_inv in H as [Hv ->].
  unfold Struct.unpack, Struct.unpack_I64, Struct.unpack_unsigned.
  rewrite to_bytes_be_length, Nat.eqb_refl. cbn [bind].
  assert (Hm : 0 <= v mod 2 ^ 64 < 2 ^ 64) by (apply Z.mod_pos_bound; lia).
  rewrite from_to_bytes_be by (change (256 ^ Z.of_nat 8) with (2 ^ 64); exact Hm).
  f_equal.
  destruct (Z.ltb_spec (v mod 2 ^ 64) (2 ^ 63)) as [Hlt|Hge].
  - destruct (Z.le_gt_cases 0 v) as [Hp|Hn].
    + apply Z.mod_small. lia.
    + rewrite <- (Z.mod_add v 1 (2 ^ 64)) in Hlt by lia.
      rewrite Z.mod_small in Hlt by lia. lia.
  - destruct (Z.le_gt_cases 0 v) as [Hp|Hn].
    + rewrite Z.mod_small in Hge by lia. lia.
    + rewrite <- (Z.mod_add v 1 (2 ^ 64)) by lia.
      rewrite Z.mod_small by lia. lia.
Qed.

(** ** UTF-8: decoding what was encoded *)

Lemma bind_Return {A B : Type} (r : outcome A) (k : A -> outcome B) (b : B) :
  bind r k = Return b -> exists a, r = Return a /\ k a = Return b.
Proof. destruct r as [a|e]; simpl; [eauto | discriminate]. Qed.

Lemma Return_inj {A : Type} (a b : A) : Return a = Return b -> a = b.
Proof. congruence. Qed.

Lemma utf8_decode_encode_char (c : Z) (b rest : bytes) :
  is_code_point c ->
  Utf8.encode_char c = Return b ->
  Utf8.decode (b ++ rest) = (s <- Utf8.decode rest ;; Return (c :: s)).
Proof.
  unfold is_code_point, Utf8.encode_char, Utf8.is_surrogate. intros Hc.
  destruct (Z.ltb_spec c 0x80) as [H1|H1].
  { intros H; apply Return_inj in H; subst b. cbn [app Utf8.decode].
    rewrite Z_of_byte_of_Z by lia.
    destruct (Z.ltb_spec c 128); [reflexivity | lia]. }
  destruct (Z.ltb_spec c 0x800) as [H2|H2].
  { intros H; apply Return_inj in H; subst b. cbn [app Utf8.decode].
    unfold Utf8.is_cont, Utf8.cont.
    pose proof (Z.div_mod c 64 ltac:(lia)) as Hdm.
    pose proof (Z.mod_pos_bound c 64 ltac:(lia)) as Hm.
    set (q := c / 64) in *. set (r := c mod 64) in *.
    rewrite !Z_of_byte_of_Z by lia.
    repeat match goal with
           | |- context [?a <? ?b] => destruct (Z.ltb_spec a b); try lia
           | |- context [?a <=? ?b] => destruct (Z.leb_spec a b); try lia
           end.
    cbn [andb]. replace ((192 + q - 192) * 64 + (128 + r - 128)) with c by lia.
    reflexivity. }
  destruct (Z.ltb_spec c 0x10000) as [H3|H3].
  { destruct (Z.leb_spec 0xD800 c) as [H4|H4];
      destruct (Z.leb_spec c 0xDFFF) as [H5|H5]; cbn [andb];
      try discriminate;
      intros H; apply Return_inj in H; subst b; cbn [app Utf8.decode];
      unfold Utf8.is_cont, Utf8.cont, Utf8.is_surrogate;
      pose proof (Z.div_mod c 64 ltac:(lia)) as Hdm;
      pose proof (Z.mod_pos_bound c 64 ltac:(lia)) as Hm;
      pose proof (Z.div_mod (c / 64) 64 ltac:(lia)) as Hdm';
      pose proof (Z.mod_pos_bound (c / 64) 64 ltac:(lia)) as Hm';
      replace (c / 4096) with (c / 64 / 64) by (rewrite Z.div_div by lia; reflexivity);
      set (q := c / 64) in *; set (r := c mod 64) in *;
      set (q' := q / 64) in *; set (r' := q mod 64) in *;
      rewrite !Z_of_byte_of_Z by lia;
      replace ((224 + q' - 224) * 4096 + (128 + r' - 128) * 64 + (128 + r - 128))
        with c by lia;
      repeat match goal with
             | |- context [?a <? ?b] => destruct (Z.ltb_spec a b); try lia
             | |- context [?a <=? ?b] => destruct (Z.leb_spec a b); try lia
             end; reflexivity. }
  intros H; apply Return_inj in H; subst b. cbn [app Utf8.decode].
  unfold Utf8.is_cont, Utf8.cont.
  pose proof (Z.div_mod c 64 ltac:(lia)) as Hdm.
  pose proof (Z.mod_pos_bound c 64 ltac:(lia)) as Hm.
  pose proof (Z.div_mod (c / 64) 64 ltac:(lia)) as Hdm'.
  pose proof (Z.mod_pos_bound (c / 64) 64 ltac:(lia)) as Hm'.
  pose proof (Z.div_mod (c / 64 / 64) 64 ltac:(lia)) as Hdm''.
  pose proof (Z.mod_pos_bound (c / 64 / 64) 64 ltac:(lia)) as Hm''.
  replace (c / 262144) with (c / 64 / 64 / 64)
    by (rewrite !Z.div_div by lia; reflexivity).
  replace (c / 4096) with (c / 64 / 64) by (rewrite Z.div_div by lia; reflexivity).
  set (q := c / 64) in *. set (r := c mod 64) in *.
  set (q' := q / 64) in *. set (r' := q mod 64) in *.
  set (q'' := q' / 64) in *. set (r'' := q' mod 64) in *.
  rewrite !Z_of_byte_of_Z by lia.
  replace ((240 + q'' - 240) * 262144 + (128 + r'' - 128) * 4096
           + (128 + r' - 128) * 64 + (128 + r - 128)) with c by lia.
  repeat match goal with
         | |- context [?a <? ?b] => destruct (Z.ltb_spec a b); try lia
         | |- context [?a <=? ?b] => destruct (Z.leb_spec a b); try lia
         end; reflexivity.
Qed.

Lemma utf8_decode_app (s : str) (b rest : bytes) :
  is_str s ->
  Utf8.encode s = Return b ->
  Utf8.decode (b ++ rest) = (s' <- Utf8.decode rest ;; Return (s ++ s')).
Proof.
  revert b. induction s as [|c s IH]; intros b Hs He; simpl in He.
  - apply Return_inj in He. subst b. simpl. now destruct (Utf8.decode rest).
  - apply bind_Return in He as (bc & Hc & He).
    apply bind_Return in He as (bs & Hbs & He).
    apply Return_inj in He. subst b.
    inversion Hs as [|? ? Hcp Hs']; subst.
    rewrite <- app_assoc, (utf8_decode_encode_char c bc _ Hcp Hc).
    rewrite (IH bs Hs' Hbs). now destruct (Utf8.decode rest).
Qed.

Lemma utf8_decode_encode (s : str) (b : bytes) :
  is_str s -> Utf8.encode s = Return b -> Utf8.decode b = Return s.
Proof.
  intros Hs He. rewrite <- (app_nil_r b), (utf8_decode_app s b [] Hs He).
  simpl. now rewrite app_nil_r.
Qed.

Lemma is_scalar_code_point (c : Z) : is_scalar c = true -> is_code_point c.
Proof.
  unfold is_scalar, is_code_point. intros H.
  apply andb_prop in H as [H _]. apply andb_prop in H as [H1 H2]. lia.
Qed.

Lemma encodable_is_str (s : str) : encodable s = true -> is_str s.
Proof.
  unfold encodable, is_str. rewrite forallb_forall, Forall_forall.
  intros H c Hc. apply is_scalar_code_point. auto.
Qed.

Lemma utf8_encode_char_len (c : Z) (b : bytes) :
  Utf8.encode_char c = Return b -> len b = utf8_size_char c.
Proof.
  unfold Utf8.encode_char, utf8_size_char.
  destruct (c <? 0x80); [intros H; apply Return_inj in H; now subst|].
  destruct (c <? 0x800); [intros H; apply Return_inj in H; now subst|].
  destruct (c <? 0x10000).
  - destruct (Utf8.is_surrogate c); [discriminate|].
    intros H; apply Return_inj in H; now subst.
  - intros H; apply Return_inj in H; now subst.
Qed.

Lemma utf8_encode_len (s : str) (b : bytes) :
  Utf8.encode s = Return b -> len b = utf8_len s.
Proof.
  revert b. induction s as [|c s IH]; intros b He; simpl in He.
  - apply Return_inj in He. now subst.
  - apply bind_Return in He as (bc & Hc & He).
    apply bind_Return in He as (bs & Hbs & He).
    apply Return_inj in He. subst b.
    rewrite len_app, (utf8_encode_char_len _ _ Hc), (IH _ Hbs). reflexivity.
Qed.

Lemma utf8_encode_char_ok (c : Z) :
  is_scalar c = true -> exists b, Utf8.encode_char c = Return b.
Proof.
  unfold is_scalar, Utf8.encode_char. intros H.
  apply andb_prop in H as [_ H]. apply negb_true_iff in H. rewrite H.
  destruct (c <? 0x80); [eauto|].
  destruct (c <? 0x800); [eauto|].
  destruct (c <? 0x10000); eauto.
Qed.

Lemma utf8_encode_ok (s : str) :
  encodable s = true -> exists b, Utf8.encode s = Return b.
Proof.
  induction s as [|c s IH]; simpl; intros H; [eauto|].
  apply andb_prop in H as [Hc Hs].
  destruct (utf8_encode_char_ok c Hc) as [bc ->].
  destruct (IH Hs) as [bs ->]. simpl. eauto.
Qed.

Lemma utf8_size_char_pos (c : Z) : 1 <= utf8_size_char c <= 4.
Proof.
  unfold utf8_size_char.
  destruct (c <? 0x80), (c <? 0x800), (c <? 0x10000); lia.
Qed.

Lemma utf8_len_nonneg (s : str) : 0 <= utf8_len s.
Proof.
  induction s as [|c s IH]; simpl; [lia|].
  pose proof (utf8_size_char_pos c). lia.
Qed.

(** [bytes.decode('utf-8')] raises nothing but [UnicodeDecodeError]. *)
Lemma utf8_decode_raises (b : bytes) (e : error) :
  Utf8.decode b = Raise e -> e = UnicodeDecodeError.
Proof.
  remember (length b) as n eqn:Hn.
  revert b Hn. induction n as [n IH] using lt_wf_ind. intros b Hn.
  assert (Hrec : forall t s, (length t < n)%nat ->
            bind (Utf8.decode t) (fun s' => Return (s :: s')) = Raise e ->
            e = UnicodeDecodeError).
  { intros t s Ht H. destruct (Utf8.decode t) eqn:E; [discriminate|].
    simpl in H. inversion H; subst. eapply IH; eauto. }
  destruct b as [|b0 t0]; [discriminate|].
  cbn [Utf8.decode]. cbv zeta.
  repeat match goal with
         | |- (if ?c then _ else _) = _ -> _ => destruct c
         | |- match ?t with [] => _ | _ :: _ => _ end = _ -> _ => destruct t
         | |- Raise _ = Raise _ -> _ => intros H; inversion H; reflexivity
         | |- bind (Utf8.decode ?t) _ = _ -> _ =>
             apply Hrec; subst n; simpl; lia
         end.
Qed.

(** ** Slices *)

Lemma slice_length (b : bytes) (i j : nat) :
  length (slice b i j) = Nat.min (j - i) (length b - i).
Proof. unfold slice. now rewrite length_firstn, length_skipn. Qed.

Lemma slice_seg (a x t : bytes) :
  slice (a ++ x ++ t) (length a) (length a + length x) = x.
Proof.
  unfold slice.
  rewrite skipn_app, skipn_all, Nat.sub_diag. simpl.
  replace (length a + length x - length a)%nat with (length x) by lia.
  rewrite firstn_app, firstn_all, Nat.sub_diag. simpl. apply app_nil_r.
Qed.

Lemma slice_beyond (b : bytes) (i j : nat) :
  (length b <= i)%nat -> slice b i j = [].
Proof.
  intros H. unfold slice. rewrite skipn_all2 by lia. apply firstn_nil.
Qed.

(** Reading the segment [x] that lies between [a] and [t] in the payload. *)
Ltac read_seg a x t :=
  match goal with
  | |- context [slice ?P ?i ?j] =>
      replace (slice P i j) with x
        by (symmetry;
            transitivity (slice (a ++ x ++ t) (length a) (length a + length x));
            [ f_equal;
              first [ solve [repeat rewrite <- app_assoc; reflexivity]
                    | repeat rewrite length_app; unfold len in *; lia ]
            | apply slice_seg ])
  end.

(** ** One encoded field, read back by one turn of the loop *)

Lemma valid_key_encode (key : str) :
  valid_key key = true ->
  exists kb kl, Utf8.encode key = Return kb /\
                Struct.pack FMT_U16 (len kb) = Return kl /\
                len kb = utf8_len key /\ length kl = 2%nat /\
                Utf8.decode kb = Return key /\
                Struct.unpack FMT_U16 kl = Return (len kb).
Proof.
  unfold valid_key. intros H. apply andb_prop in H as [He Hl].
  destruct (utf8_encode_ok key He) as [kb Hkb].
  pose proof (utf8_encode_len _ _ Hkb) as Hlen.
  assert (Hp : Struct.pack FMT_U16 (len kb) = Return (to_bytes_be 2 (len kb))).
  { apply pack_unsigned_ok. pose proof (len_nonneg kb).
    change (256 ^ Z.of_nat 2) with 65536. lia. }
  exists kb, (to_bytes_be 2 (len kb)).
  split; [exact Hkb|]. split; [exact Hp|]. split; [exact Hlen|].
  split; [apply to_bytes_be_length|]. split.
  - apply utf8_decode_encode; auto. now apply encodable_is_str.
  - now apply unpack_pack_unsigned.
Qed.

Lemma pack_U8_type_code (c : Z) :
  0 <= c < 256 ->
  exists tc, Struct.pack FMT_U8 c = Return tc /\ length tc = 1%nat /\
             Struct.unpack FMT_U8 tc = Return c.
Proof.
  intros Hc. exists (to_bytes_be 1 c).
  assert (H : Struct.pack FMT_U8 c = Return (to_bytes_be 1 c))
    by (apply pack_unsigned_ok; change (256 ^ Z.of_nat 1) with 256; lia).
  split; [exact H|]. split; [apply to_bytes_be_length|].
  now apply unpack_pack_unsigned.
Qed.

Lemma pack_U32_len (b : bytes) :
  len b <= 2 ^ 32 - 1 ->
  exists vl, Struct.pack FMT_U32 (len b) = Return vl /\ length vl = 4%nat /\
             Struct.unpack FMT_U32 vl = Return (len b).
Proof.
  intros Hb. exists (to_bytes_be 4 (len b)).
  assert (H : Struct.pack FMT_U32 (len b) = Return (to_bytes_be 4 (len b))).
  { apply pack_unsigned_ok. pose proof (len_nonneg b).
    change (256 ^ Z.of_nat 4) with (2 ^ 32). lia. }
  split; [exact H|]. split; [apply to_bytes_be_length|].
  now apply unpack_pack_unsigned.
Qed.

(** The common head of a turn: key length, key and type code. *)
Ltac read_head pre kl kb tc rest Hku Hkd Htcu :=
  unfold decode_field;
  read_seg pre kl (kb ++ tc ++ rest); rewrite Hku; cbn [bind];
  read_seg (pre ++ kl) kb (tc ++ rest); rewrite Hkd; cbn [bind];
  read_seg (pre ++ kl ++ kb) tc rest; rewrite Htcu; cbn [bind].

Ltac same_state :=
  do 2 f_equal; repeat rewrite length_app; unfold len in *; lia.

Lemma decode_field_encoded (key : str) (tv : tagged) (parts : list bytes) :
  valid_key key = true ->
  valid_value tv = true ->
  exists kb kl parts' fb,
    Utf8.encode key = Return kb /\
    Struct.pack FMT_U16 (len kb) = Return kl /\
    encode_value (parts ++ [kl; kb]) tv = Return parts' /\
    concat parts' = concat parts ++ fb /\
    len fb = field_size (key, tv) /\
    forall pre post result,
      decode_field (pre ++ fb ++ post) (length pre) result
      = Return ((length pre + length fb)%nat, dict_set result key tv).
Proof.
  intros Hk Hv.
  destruct (valid_key_encode key Hk) as (kb & kl & Hkb & Hkl & Hklen & Hkl2 & Hkd & Hku).
  exists kb, kl.
  destruct tv as [v|v|v|s|b|t]; cbn [valid_value] in Hv; try discriminate.
  - (* int64 *)
    destruct (pack_U8_type_code TYPE_INT64 ltac:(unfold TYPE_INT64; lia))
      as (tc & Htc & Htc1 & Htcu).
    assert (Hvb : Struct.pack FMT_I64 v = Return (to_bytes_be 8 (v mod 2 ^ 64)))
      by (unfold Struct.pack, Struct.pack_I64; now rewrite Hv).
    set (vb := to_bytes_be 8 (v mod 2 ^ 64)) in *.
    assert (Hvb8 : length vb = 8%nat) by apply to_bytes_be_length.
    exists (parts ++ [kl; kb] ++ [tc; vb]), (kl ++ kb ++ tc ++ vb).
    split; [exact Hkb|]. split; [exact Hkl|]. split.
    { cbn [encode_value]. rewrite Htc, Hvb. cbn [bind]. now rewrite <- app_assoc. }
    split. { rewrite concat_app. cbn [concat app].
             rewrite ?app_nil_r, <- ?app_assoc. reflexivity. }
    split. { unfold field_size; cbn [fst snd value_size].
             rewrite !len_app. unfold len in *. lia. }
    intros pre post result.
    read_head pre kl kb tc (vb ++ post) Hku Hkd Htcu.
    change (TYPE_INT64 =? TYPE_INT64) with true. cbv iota.
    read_seg (pre ++ kl ++ kb ++ tc) vb post.
    rewrite (unpack_pack_I64 _ _ Hvb). cbn [bind]. same_state.
  - (* uint64 *)
    destruct (pack_U8_type_code TYPE_UINT64 ltac:(unfold TYPE_UINT64; lia))
      as (tc & Htc & Htc1 & Htcu).
    assert (Hvb : Struct.pack FMT_U64 v = Return (to_bytes_be 8 v))
      by (unfold Struct.pack, Struct.pack_unsigned;
          change (256 ^ Z.of_nat 8) with (2 ^ 64); now rewrite Hv).
    set (vb := to_bytes_be 8 v) in *.
    assert (Hvb8 : length vb = 8%nat) by apply to_bytes_be_length.
    exists (parts ++ [kl; kb] ++ [tc; vb]), (kl ++ kb ++ tc ++ vb).
    split; [exact Hkb|]. split; [exact Hkl|]. split.
    { cbn [encode_value]. rewrite Htc, Hvb. cbn [bind]. now rewrite <- app_assoc. }
    split. { rewrite concat_app. cbn [concat app].
             rewrite ?app_nil_r, <- ?app_assoc. reflexivity. }
    split. { unfold field_size; cbn [fst snd value_size].
             rewrite !len_app. unfold len in *. lia. }
    intros pre post result.
    read_head pre kl kb tc (vb ++ post) Hku Hkd Htcu.
    change (TYPE_UINT64 =? TYPE_INT64) with false.
    change (TYPE_UINT64 =? TYPE_UINT64) with true. cbv iota.
    read_seg (pre ++ kl ++ kb ++ tc) vb post.
    unfold Struct.unpack. rewrite (unpack_pack_unsigned _ _ _ Hvb).
    cbn [bind]. same_state.
  - (* float64 *)
    destruct (pack_U8_type_code TYPE_FLOAT64 ltac:(unfold TYPE_FLOAT64; lia))
      as (tc & Htc & Htc1 & Htcu).
    assert (Hvb : Struct.pack_unsigned 8 v = Return (to_bytes_be 8 v))
      by (unfold Struct.pack_unsigned;
          change (256 ^ Z.of_nat 8) with (2 ^ 64); now rewrite Hv).
    set (vb := to_bytes_be 8 v) in *.
    assert (Hvb8 : length vb = 8%nat) by apply to_bytes_be_length.
    exists (parts ++ [kl; kb] ++ [tc; vb]), (kl ++ kb ++ tc ++ vb).
    split; [exact Hkb|]. split; [exact Hkl|]. split.
    { cbn [encode_value]. rewrite Htc. unfold Struct.pack, Struct.pack_F64. cbn [bind].
      now rewrite <- app_assoc. }
    split. { rewrite concat_app. cbn [concat app].
             rewrite ?app_nil_r, <- ?app_assoc. reflexivity. }
    split. { unfold field_size; cbn [fst snd value_size].
             rewrite !len_app. unfold len in *. lia. }
    intros pre post result.
    read_head pre kl kb tc (vb ++ post) Hku Hkd Htcu.
    change (TYPE_FLOAT64 =? TYPE_INT64) with false.
    change (TYPE_FLOAT64 =? TYPE_UINT64) with false.
    change (TYPE_FLOAT64 =? TYPE_FLOAT64) with true. cbv iota.
    read_seg (pre ++ kl ++ kb ++ tc) vb post.
    unfold Struct.unpack. rewrite (unpack_pack_unsigned _ _ _ Hvb).
    cbn [bind]. same_state.
  - (* string *)
    destruct (pack_U8_type_code TYPE_STRING ltac:(unfold TYPE_STRING; lia))
      as (tc & Htc & Htc1 & Htcu).
    apply andb_prop in Hv as [Hs Hsl]. apply Z.leb_le in Hsl.
    destruct (utf8_encode_ok s Hs) as [sb Hsb].
    pose proof (utf8_encode_len _ _ Hsb) as Hsblen.
    pose proof (utf8_decode_encode _ _ (encodable_is_str _ Hs) Hsb) as Hsd.
    destruct (pack_U32_len sb ltac:(lia)) as (vl & Hvl & Hvl4 & Hvlu).
    exists (parts ++ [kl; kb] ++ [tc; vl; sb]), (kl ++ kb ++ tc ++ vl ++ sb).
    split; [exact Hkb|]. split; [exact Hkl|]. split.
    { cbn [encode_value]. rewrite Htc, Hsb. cbn [bind]. rewrite Hvl. cbn [bind].
      now rewrite <- app_assoc. }
    split. { rewrite concat_app. cbn [concat app].
             rewrite ?app_nil_r, <- ?app_assoc. reflexivity. }
    split. { unfold field_size; cbn [fst snd value_size].
             rewrite !len_app. unfold len in *. lia. }
    intros pre post result.
    read_head pre kl kb tc (vl ++ sb ++ post) Hku Hkd Htcu.
    change (TYPE_STRING =? TYPE_INT64) with false.
    change (TYPE_STRING =? TYPE_UINT64) with false.
    change (TYPE_STRING =? TYPE_FLOAT64) with false.
    change (TYPE_STRING =? TYPE_STRING) with true. cbv iota.
    read_seg (pre ++ kl ++ kb ++ tc) vl (sb ++ post). rewrite Hvlu. cbn [bind].
    read_seg (pre ++ kl ++ kb ++ tc ++ vl) sb post. rewrite Hsd. cbn [bind].
    same_state.
  - (* binary *)
    destruct (pack_U8_type_code TYPE_BINARY ltac:(unfold TYPE_BINARY; lia))
      as (tc & Htc & Htc1 & Htcu).
    apply Z.leb_le in Hv.
    destruct (pack_U32_len b ltac:(lia)) as (vl & Hvl & Hvl4 & Hvlu).
    exists (parts ++ [kl; kb] ++ [tc; vl; b]), (kl ++ kb ++ tc ++ vl ++ b).
    split; [exact Hkb|]. split; [exact Hkl|]. split.
    { cbn [encode_value]. rewrite Htc, Hvl. cbn [bind].
      now rewrite <- app_assoc. }
    split. { rewrite concat_app. cbn [concat app].
             rewrite ?app_nil_r, <- ?app_assoc. reflexivity. }
    split. { unfold field_size; cbn [fst snd value_size].
             rewrite !len_app. unfold len in *. lia. }
    intros pre post result.
    read_head pre kl kb tc (vl ++ b ++ post) Hku Hkd Htcu.
    change (TYPE_BINARY =? TYPE_INT64) with false.
    change (TYPE_BINARY =? TYPE_UINT64) with false.
    change (TYPE_BINARY =? TYPE_FLOAT64) with false.
    change (TYPE_BINARY =? TYPE_STRING) with false.
    change (TYPE_BINARY =? TYPE_BINARY) with true. cbv iota.
    read_seg (pre ++ kl ++ kb ++ tc) vl (b ++ post). rewrite Hvlu. cbn [bind].
    read_seg (pre ++ kl ++ kb ++ tc ++ vl) b post.
    same_state.
Qed.

(** ** The loop: progress, budget and errors *)

Ltac split_binds :=
  repeat match goal with
         | |- context [bind ?r _] =>
             let E := fresh "E" in destruct r eqn:E; cbn [bind]
         | |- context [if ?c then _ else _] =>
             let E := fresh "E" in destruct c eqn:E
         end.

Lemma unpack_unsigned_raises (size : nat) (b : bytes) (e : error) :
  Struct.unpack_unsigned size b = Raise e -> e = struct_error.
Proof.
  unfold Struct.unpack_unsigned. destruct (Nat.eqb _ _); congruence.
Qed.

Lemma unpack_I64_raises (b : bytes) (e : error) :
  Struct.unpack FMT_I64 b = Raise e -> e = struct_error.
Proof.
  unfold Struct.unpack, Struct.unpack_I64.
  destruct (Struct.unpack_unsigned 8 b) eqn:E; cbn [bind]; [discriminate|].
  intros H; inversion H; subst. eapply unpack_unsigned_raises; eauto.
Qed.

(** A turn that returns has moved the cursor by three bytes at least:
    key length and type code. *)
Lemma decode_field_advances (payload : bytes) (offset : nat) (result : dict)
      (offset' : nat) (result' : dict) :
  decode_field payload offset result = Return (offset', result') ->
  (offset + 3 <= offset')%nat.
Proof.
  unfold decode_field. split_binds; intros H; try discriminate;
    apply Return_inj in H; inversion H; lia.
Qed.

(** The exceptions of a turn. *)
Lemma decode_field_raises (payload : bytes) (offset : nat) (result : dict) (e : error) :
  decode_field payload offset result = Raise e ->
  e = struct_error \/ e = UnicodeDecodeError \/ e = ValueError_unknown_type_code.
Proof.
  unfold decode_field, Struct.unpack.
  split_binds; intros H; try discriminate; inversion H; subst; auto;
    repeat match goal with
           | E : Struct.unpack_unsigned _ _ = Raise _ |- _ =>
               apply unpack_unsigned_raises in E; subst
           | E : Struct.unpack_I64 _ = Raise _ |- _ =>
               apply (unpack_I64_raises _ _) in E; subst
           | E : Utf8.decode _ = Raise _ |- _ =>
               apply utf8_decode_raises in E; subst
           end; auto.
Qed.

Lemma decode_loop_budget (payload : bytes) (b1 b2 : nat) :
  forall offset result,
    (length payload - offset <= b1)%nat ->
    (length payload - offset <= b2)%nat ->
    decode_loop b1 payload offset result = decode_loop b2 payload offset result.
Proof.
  revert b2. induction b1 as [|b1 IH]; intros b2 offset result H1 H2.
  - destruct b2; simpl;
      destruct (Nat.ltb_spec offset (length payload)); try reflexivity; lia.
  - destruct b2; simpl;
      destruct (Nat.ltb_spec offset (length payload)); try reflexivity; try lia.
    destruct (decode_field payload offset result) as [[o' r']|e] eqn:E;
      cbn [bind]; [|reflexivity].
    apply decode_field_advances in E. apply IH; lia.
Qed.

Lemma decode_loop_raises (payload : bytes) (budget : nat) :
  forall offset result e,
    (length payload - offset <= budget)%nat ->
    decode_loop budget payload offset result = Raise e ->
    e = struct_error \/ e = UnicodeDecodeError \/ e = ValueError_unknown_type_code.
Proof.
  induction budget as [|b IH]; intros offset result e Hb; simpl;
    destruct (Nat.ltb_spec offset (length payload)) as [Hlt|Hge]; try discriminate; try lia.
  destruct (decode_field payload offset result) as [[o' r']|e'] eqn:E; cbn [bind].
  - apply decode_field_advances in E. apply IH. lia.
  - intros He; inversion He; subst. eapply decode_field_raises; eauto.
Qed.

(** From a state of the loop, the run goes on as the loop does there. *)
Lemma decode_loop_from (payload : bytes) (offset : nat) (result : dict) :
  reaches payload offset result ->
  forall budget,
    (length payload - offset <= budget)%nat ->
    decode_loop (length payload) payload 0 []
    = decode_loop budget payload offset result.
Proof.
  induction 1 as [|o r o' r' Hr IH Hlt Hf]; intros budget Hb.
  - apply decode_loop_budget; lia.
  - pose proof (decode_field_advances _ _ _ _ _ Hf) as Hadv.
    rewrite (IH (S (Nat.max budget (length payload)))) by lia. simpl.
    destruct (Nat.ltb_spec o (length payload)); [|lia].
    rewrite Hf. cbn [bind]. apply decode_loop_budget; lia.
Qed.

Lemma decode_message_covers (message_bytes payload : bytes) :
  covers message_bytes payload ->
  decode_message message_bytes = decode_loop (length payload) payload 0 [].
Proof.
  intros (total & H4 & Hu & Hc & ->). unfold decode_message.
  destruct (Z.ltb_spec (len message_bytes) 4); [lia|].
  rewrite Hu. cbn [bind].
  destruct (Z.ltb_spec (len message_bytes) (4 + total)); [lia|]. reflexivity.
Qed.

(** [decode_message] never stops for want of budget. *)
Lemma decode_message_budget (message_bytes : bytes) :
  decode_message message_bytes <> Raise loop_budget_exhausted.
Proof.
  unfold decode_message.
  destruct (len message_bytes <? 4); [discriminate|].
  destruct (Struct.unpack FMT_U32 (slice message_bytes 0 4)) as [total|e] eqn:Hu;
    cbn [bind].
  - destruct (len message_bytes <? 4 + total); [discriminate|].
    intros H. apply decode_loop_raises in H; [|lia].
    destruct H as [H|[H|H]]; discriminate.
  - apply unpack_unsigned_raises in Hu. subst. discriminate.
Qed.

(** ** Dictionaries *)

Lemma str_eqb_eq (a b : str) : str_eqb a b = true <-> a = b.
Proof.
  revert b. induction a as [|x a IH]; intros [|y b]; simpl; split;
    try congruence; try discriminate.
  - intros H. apply andb_prop in H as [H1 H2].
    apply Z.eqb_eq in H1. apply IH in H2. congruence.
  - intros H. inversion H; subst. rewrite Z.eqb_refl. simpl. now apply IH.
Qed.

Lemma str_eqb_refl (a : str) : str_eqb a a = true.
Proof. now apply str_eqb_eq. Qed.

Lemma str_eqb_neq (a b : str) : str_eqb a b = false <-> a <> b.
Proof.
  split.
  - intros H E. apply str_eqb_eq in E. congruence.
  - intros H. destruct (str_eqb a b) eqn:E; [|reflexivity].
    apply str_eqb_eq in E. contradiction.
Qed.

Lemma dict_get_set (d : dict) (key key' : str) (v : tagged) :
  dict_get (dict_set d key v) key'
  = if str_eqb key key' then Some v else dict_get d key'.
Proof.
  induction d as [|[k w] d IH]; simpl.
  - reflexivity.
  - destruct (str_eqb k key) eqn:E; simpl.
    + apply str_eqb_eq in E. subst k.
      destruct (str_eqb key key'); reflexivity.
    + rewrite IH. destruct (str_eqb k key') eqn:E'; [|reflexivity].
      apply str_eqb_eq in E'. subst k.
      destruct (str_eqb key key') eqn:E2; [|reflexivity].
      apply str_eqb_eq in E2. subst key'. rewrite str_eqb_refl in E. discriminate.
Qed.

Lemma dict_set_fresh (d : dict) (key : str) (v : tagged) :
  ~ In key (keys d) -> dict_set d key v = d ++ [(key, v)].
Proof.
  induction d as [|[k w] d IH]; simpl; intros H; [reflexivity|].
  destruct (str_eqb k key) eqn:E.
  - apply str_eqb_eq in E. tauto.
  - rewrite IH by tauto. reflexivity.
Qed.

(** Assigning fields with distinct new keys appends them in order. *)
Lemma assign_all_nodup (its : list (str * tagged)) (result : dict) :
  NoDup (keys (result ++ its)) -> assign_all its result = result ++ its.
Proof.
  revert result. induction its as [|[k v] its IH]; intros result H; simpl.
  - now rewrite app_nil_r.
  - unfold keys in H. rewrite map_app in H. simpl in H.
    pose proof (NoDup_remove_2 _ _ _ H) as Hk.
    rewrite dict_set_fresh by (unfold keys; intros Hin; apply Hk, in_or_app; auto).
    unfold assign_all in IH. rewrite IH.
    + now rewrite <- app_assoc.
    + unfold keys. rewrite <- app_assoc, map_app. exact H.
Qed.

(** The value found under a key is the one assigned last. *)
Lemma assign_all_last (pre post : list (str * tagged)) (key : str) (v : tagged)
      (result : dict) :
  ~ In key (keys post) ->
  dict_get (assign_all (pre ++ (key, v) :: post) result) key = Some v.
Proof.
  intros Hpost. unfold assign_all. rewrite fold_left_app. simpl.
  set (d := fold_left _ pre result). clearbody d.
  assert (Hd : dict_get (dict_set d key v) key = Some v)
    by (rewrite dict_get_set, str_eqb_refl; reflexivity).
  revert Hd. generalize (dict_set d key v). clear d.
  induction post as [|[k w] post IH]; intros d Hd; simpl; [exact Hd|].
  apply IH.
  - simpl in Hpost. tauto.
  - rewrite dict_get_set. destruct (str_eqb k key) eqn:E; [|exact Hd].
    apply str_eqb_eq in E. simpl in Hpost. tauto.
Qed.

(** ** Encoded fields, parsed by the loop *)

Lemma field_size_min (f : str * tagged) : 3 <= field_size f.
Proof.
  unfold field_size. pose proof (utf8_len_nonneg (fst f)).
  assert (0 <= value_size (snd f)).
  { destruct (snd f) as [v|v|v|s|b|t]; cbn [value_size]; try lia.
    - pose proof (utf8_len_nonneg s). lia.
    - pose proof (len_nonneg b). lia. }
  lia.
Qed.

Lemma encode_fields_reaches (its : list (str * tagged)) :
  valid_fields its = true ->
  forall parts,
  exists parts' fbs,
    encode_fields its parts = Return parts' /\
    concat parts' = concat parts ++ fbs /\
    len fbs = payload_size its /\
    forall pre post result,
      reaches (pre ++ fbs ++ post) (length pre) result ->
      reaches (pre ++ fbs ++ post) (length pre + length fbs) (assign_all its result).
Proof.
  induction its as [|[key tv] its IH]; intros Hv parts.
  - exists parts, []. simpl. rewrite app_nil_r.
    repeat split; auto. intros pre post result H. now rewrite Nat.add_0_r.
  - simpl in Hv. apply andb_prop in Hv as [Hf Hv].
    apply andb_prop in Hf as [Hk Htv]. simpl in Hk, Htv.
    destruct (decode_field_encoded key tv parts Hk Htv)
      as (kb & kl & parts1 & fb & Hkb & Hkl & Hev & Hc1 & Hl1 & Hd).
    destruct (IH Hv parts1) as (parts' & fbs & He & Hc & Hl & Hr).
    exists parts', (fb ++ fbs).
    split. { cbn [encode_fields]. rewrite Hkb. cbn [bind]. rewrite Hkl. cbn [bind].
             rewrite Hev. cbn [bind]. exact He. }
    split. { rewrite Hc, Hc1. now rewrite <- app_assoc. }
    split. { rewrite len_app, Hl1, Hl. reflexivity. }
    intros pre post result H.
    pose proof (field_size_min (key, tv)) as Hmin.
    assert (Hstep : reaches (pre ++ (fb ++ fbs) ++ post)
                      (length pre + length fb) (dict_set result key tv)).
    { eapply reaches_turn; [exact H | |].
      - repeat rewrite length_app. unfold len in *. lia.
      - rewrite <- (app_assoc fb). apply Hd. }
    specialize (Hr (pre ++ fb) post (dict_set result key tv)).
    rewrite <- !app_assoc in Hr. rewrite <- !app_assoc in Hstep.
    rewrite length_app in Hr. specialize (Hr Hstep).
    rewrite <- !app_assoc, length_app, Nat.add_assoc. exact Hr.
Qed.

(** ** Frames *)

Lemma encode_message_inv (m : dict) (f : bytes) :
  encode_message m = Return f ->
  exists payload,
    f = to_bytes_be 4 (len payload) ++ payload /\ len payload < 2 ^ 32.
Proof.
  unfold encode_message. intros H.
  apply bind_Return in H as (parts & _ & H).
  apply bind_Return in H as (header & Hh & H).
  apply Return_inj in H. subst f.
  apply pack_unsigned_inv in Hh as [Hr ->].
  exists (concat parts). split; [reflexivity|].
  change (256 ^ Z.of_nat 4) with (2 ^ 32) in Hr. lia.
Qed.

Lemma covers_frame (payload post : bytes) :
  len payload < 2 ^ 32 ->
  covers (to_bytes_be 4 (len payload) ++ payload ++ post) payload.
Proof.
  intros Hl. exists (len payload). pose proof (len_nonneg payload) as H0.
  pose proof (to_bytes_be_length 4 (len payload)) as H4.
  split; [|split; [|split]].
  - rewrite !len_app. unfold len in *. lia.
  - replace (slice _ 0 4) with (to_bytes_be 4 (len payload)).
    + apply unpack_pack_unsigned, pack_unsigned_ok.
      change (256 ^ Z.of_nat 4) with (2 ^ 32). lia.
    + symmetry. apply (slice_seg [] (to_bytes_be 4 (len payload)) (payload ++ post)).
  - rewrite !len_app. pose proof (len_nonneg post). unfold len in *. lia.
  - symmetry.
    replace (4 + Z.to_nat (len payload))%nat
      with (length (to_bytes_be 4 (len payload)) + length payload)%nat
      by (unfold len in *; lia).
    rewrite <- H4 at 2. apply slice_seg.
Qed.

(** Encoding a valid message returns a frame, and the frame, whatever
    follows it in the buffer, decodes to the fields assigned in order. *)
Lemma encode_decode_frame (its : list (str * tagged)) :
  valid_fields its = true ->
  payload_size its <= 2 ^ 32 - 1 ->
  exists f,
    encode_message its = Return f /\
    len f = 4 + payload_size its /\
    forall post, decode_message (f ++ post) = Return (assign_all its []).
Proof.
  intros Hv Hs.
  destruct (encode_fields_reaches its Hv []) as (parts & fbs & He & Hc & Hl & Hr).
  simpl in Hc. subst fbs.
  assert (Hh : Struct.pack FMT_U32 (len (concat parts))
               = Return (to_bytes_be 4 (len (concat parts)))).
  { apply pack_unsigned_ok. pose proof (len_nonneg (concat parts)).
    change (256 ^ Z.of_nat 4) with (2 ^ 32). lia. }
  exists (to_bytes_be 4 (len (concat parts)) ++ concat parts).
  split; [|split].
  - unfold encode_message, items. rewrite He. cbn [bind]. rewrite Hh. reflexivity.
  - rewrite len_app, Hl. unfold len. now rewrite to_bytes_be_length.
  - intros post. rewrite <- app_assoc.
    rewrite (decode_message_covers _ (concat parts)) by (apply covers_frame; lia).
    specialize (Hr [] [] [] (reaches_start _)).
    simpl in Hr. rewrite app_nil_r in Hr.
    rewrite (decode_loop_from _ _ _ Hr 0) by lia.
    simpl. now rewrite Nat.ltb_irrefl.
Qed.

Lemma is_dict_NoDup (d : dict) : is_dict d = true -> NoDup (keys d).
Proof.
  induction d as [|[k v] d IH]; simpl; intros H; constructor.
  - apply andb_prop in H as [H _]. apply negb_true_iff in H.
    intros Hin. assert (Ht : existsb (str_eqb k) (keys d) = true).
    { apply existsb_exists. exists k. split; [exact Hin | apply str_eqb_refl]. }
    congruence.
  - apply andb_prop in H as [_ H]. auto.
Qed.

(* ================================================================== *)
(** * The codec *)

(** C6. The message [{"age": ("int64", 30)}] encodes to exactly the 18
    bytes 00 00 00 0E 00 03 61 67 65 01 00 00 00 00 00 00 00 1E, and
    these bytes decode to [{"age": ("int64", 30)}]. *)
Theorem age_scenario :
  let age := [([97; 103; 101], T_int64 30)] in
  let wire := [x00; x00; x00; x0e;
               x00; x03; x61; x67; x65;
               x01;
               x00; x00; x00; x00; x00; x00; x00; x1e] in
  encode_message age = Return wire /\ decode_message wire = Return age.
Proof.
  split; vm_compute; reflexivity.
Qed.

(** C2, as amended.  For every valid message [m] (distinct keys; UTF-8
    key length at most 65535; int64, uint64 and float64 values in their
    64-bit ranges; string and binary lengths at most 2^32 - 1) whose
    encoded payload is at most 2^32 - 1 bytes long in all,
    [encode_message m] returns a frame and [decode_message] of that
    frame returns [m] itself, key by key and value by value. *)
Theorem decode_encode_roundtrip (m : dict) :
  is_dict m = true ->
  valid_fields (items m) = true ->
  payload_size (items m) <= 2 ^ 32 - 1 ->
  exists f,
    encode_message m = Return f /\
    decode_message f = Return m /\
    forall d, decode_message f = Return d ->
              forall key, dict_get d key = dict_get m key.
Proof.
  intros Hd Hv Hs. unfold items in *.
  destruct (encode_decode_frame m Hv Hs) as (f & He & _ & Hdec).
  specialize (Hdec []). rewrite app_nil_r in Hdec.
  rewrite (assign_all_nodup m []) in Hdec by (simpl; now apply is_dict_NoDup).
  simpl in Hdec. exists f. split; [exact He|]. split; [exact Hdec|].
  intros d Hd' key. congruence.
Qed.

(** A message with the five kinds and the boundary values: the empty
    key, keys of one, two, three and four UTF-8 bytes a character, the
    least and greatest 64-bit integers, 0 and -1, the empty string and
    the empty binary. *)
Lemma decode_encode_roundtrip_witness :
  let m := [([97; 103; 101], T_int64 30);
            ([], T_int64 (- 9223372036854775808));
            ([0xE9; 0x20AC; 0x10348], T_uint64 18446744073709551615);
            ([110], T_int64 (- 1));
            ([122], T_uint64 0);
            ([102], T_float64 4621813488089437307);   (* 9.99 *)
            ([115], T_string []);
            ([116], T_string [0x3042; 0x1F600; 65]);
            ([98], T_binary []);
            ([99], T_binary [x00; xff; x80])] in
  exists f,
    encode_message m = Return f /\
    decode_message f = Return m /\
    forall d, decode_message f = Return d ->
              forall key, dict_get d key = dict_get m key.
Proof.
  intros m. apply (decode_encode_roundtrip m).
  - vm_compute. reflexivity.
  - vm_compute. reflexivity.
  - vm_compute. discriminate.
Defined.

Lemma oversized_binary_len : len oversized_binary = 4294967295.
Proof.
  unfold len, oversized_binary. rewrite repeat_length. apply Z2Nat.id. lia.
Qed.

Lemma encode_message_single_binary_overflow (b : bytes) :
  len b <= 2 ^ 32 - 1 ->
  2 ^ 32 - 7 <= len b ->
  is_dict [([], T_binary b)] = true /\
  valid_fields [([], T_binary b)] = true /\
  encode_message [([], T_binary b)] = Raise struct_error.
Proof.
  intros Hle Hge. split; [reflexivity|]. split.
  - unfold valid_fields, valid_field, valid_key. cbn [forallb fst snd valid_value].
    apply Z.leb_le in Hle. rewrite Hle. reflexivity.
  - destruct (pack_U32_len b Hle) as (vl & Hvl & Hvl4 & _).
    unfold encode_message, items. cbn [encode_fields Utf8.encode bind].
    change (Struct.pack FMT_U16 (len [])) with (Return (A:=bytes) [x00; x00]).
    cbn [bind encode_value].
    change (Struct.pack FMT_U8 TYPE_BINARY) with (Return (A:=bytes) [x05]).
    cbn [bind]. rewrite Hvl. cbn [bind app concat].
    unfold Struct.pack, Struct.pack_unsigned.
    set (payload := x00 :: x00 :: x05 :: vl ++ b ++ []).
    assert (Hp : len payload = 7 + len b).
    { unfold payload, len in *. cbn [length]. rewrite !length_app. simpl length. lia. }
    rewrite Hp. change (256 ^ Z.of_nat 4) with (2 ^ 32).
    destruct (Z.ltb_spec (7 + len b) (2 ^ 32)); [lia|].
    now rewrite andb_false_r.
Qed.

(** C2, as stated, fails.  The message [{"": ("binary", b)}] with [b] of
    2^32 - 1 zero bytes has distinct keys, a key of at most 65535 bytes
    and a binary value of at most 2^32 - 1 bytes, and [encode_message]
    raises [struct.error] on it when it packs the payload length:
    nothing is there to decode. *)
Lemma decode_encode_roundtrip_needs_payload_bound :
  is_dict oversized_message = true /\
  valid_fields oversized_message = true /\
  encode_message oversized_message = Raise struct_error.
Proof.
  apply encode_message_single_binary_overflow;
    rewrite oversized_binary_len; lia.
Qed.

(** C10. Bytes past the declared end of the frame are ignored: for
    every valid message [m] and every byte string [s],
    [decode_message (encode_message m ++ s)] returns, and returns what
    [decode_message (encode_message m)] returns. *)
Theorem decode_ignores_trailing_bytes (m : dict) (s : bytes) :
  valid_message m = true ->
  exists f d,
    encode_message m = Return f /\
    decode_message (f ++ s) = Return d /\
    decode_message f = Return d.
Proof.
  unfold valid_message. intros H. apply andb_prop in H as [Hv Hs].
  apply Z.leb_le in Hs.
  destruct (encode_decode_frame (items m) Hv Hs) as (f & He & _ & Hdec).
  exists f, (assign_all (items m) []). split; [exact He|]. split.
  - apply Hdec.
  - rewrite <- (app_nil_r f) at 1. apply Hdec.
Qed.

Lemma decode_ignores_trailing_bytes_witness :
  exists f d,
    encode_message [([97; 103; 101], T_int64 30); ([110], T_string [65; 0xE9])]
      = Return f /\
    decode_message (f ++ [xff; x00; x07]) = Return d /\
    decode_message f = Return d.
Proof.
  apply (decode_ignores_trailing_bytes
           [([97; 103; 101], T_int64 30); ([110], T_string [65; 0xE9])]
           [xff; x00; x07]).
  vm_compute. reflexivity.
Defined.

(** C3. Every strict prefix [p] of a frame [f] returned by
    [encode_message] is refused by [decode_message]: with
    [ValueError("メッセージが短すぎます")] (too short) when [p] has fewer
    than 4 bytes, with [ValueError("不完全なメッセージです")] (incomplete)
    otherwise; no mapping is returned. *)
Theorem decode_strict_prefix (m : dict) (f p : bytes) :
  encode_message m = Return f ->
  strict_prefix p f ->
  decode_message p
  = Raise (if len p <? 4 then ValueError_too_short else ValueError_incomplete).
Proof.
  intros He (rest & Hrest & Hf).
  apply encode_message_inv in He as (payload & Hfp & Hl).
  pose proof (len_nonneg payload) as H0.
  pose proof (to_bytes_be_length 4 (len payload)) as H4.
  assert (Hlen : len p < 4 + len payload).
  { assert (Hlf : len f = 4 + len payload)
      by (rewrite Hfp, len_app; unfold len in *; lia).
    rewrite Hf, len_app in Hlf.
    destruct rest; [congruence|]. unfold len in *. cbn [length] in Hlf. lia. }
  unfold decode_message.
  destruct (Z.ltb_spec (len p) 4) as [Hs|Hs]; [reflexivity|].
  assert (Hhead : slice p 0 4 = to_bytes_be 4 (len payload)).
  { unfold slice. simpl.
    assert (Hfirst : firstn 4 f = to_bytes_be 4 (len payload)).
    { transitivity (firstn (length (to_bytes_be 4 (len payload)))
                             (to_bytes_be 4 (len payload) ++ payload)).
      - rewrite H4, Hfp. reflexivity.
      - rewrite firstn_app, firstn_all, Nat.sub_diag, firstn_O. apply app_nil_r. }
    rewrite Hf, firstn_app in Hfirst.
    replace (4 - length p)%nat with 0%nat in Hfirst by (unfold len in *; lia).
    simpl in Hfirst. now rewrite app_nil_r in Hfirst. }
  rewrite Hhead. unfold Struct.unpack.
  rewrite (unpack_pack_unsigned 4 (len payload))
    by (apply pack_unsigned_ok; change (256 ^ Z.of_nat 4) with (2 ^ 32); lia).
  cbn [bind].
  destruct (Z.ltb_spec (len p) (4 + len payload)); [reflexivity | lia].
Qed.

Lemma decode_strict_prefix_witness :
  decode_message [x00; x00; x00; x0e; x00; x03; x61; x67; x65; x01; x00; x00]
  = Raise ValueError_incomplete
  /\ decode_message [x00; x00; x00] = Raise ValueError_too_short.
Proof.
  pose (age := [([97; 103; 101], T_int64 30)] : dict).
  pose (wire := [x00; x00; x00; x0e; x00; x03; x61; x67; x65; x01;
                 x00; x00; x00; x00; x00; x00; x00; x1e]).
  assert (He : encode_message age = Return wire) by (vm_compute; reflexivity).
  split.
  - apply (decode_strict_prefix age wire
             [x00; x00; x00; x0e; x00; x03; x61; x67; x65; x01; x00; x00] He).
    exists [x00; x00; x00; x00; x00; x1e]. split; [discriminate | reflexivity].
  - apply (decode_strict_prefix age wire [x00; x00; x00] He).
    exists [x0e; x00; x03; x61; x67; x65; x01;
            x00; x00; x00; x00; x00; x00; x00; x1e].
    split; [discriminate | reflexivity].
Defined.

(** C8. A well-formed frame may carry a key more than once: it decodes
    to a mapping, and the mapping binds the key to the value of its last
    occurrence in payload order. *)
Theorem decode_duplicate_key_last_wins
        (pre post : list (str * tagged)) (key : str) (v : tagged) :
  let fields := pre ++ (key, v) :: post in
  valid_fields fields = true ->
  payload_size fields <= 2 ^ 32 - 1 ->
  ~ In key (keys post) ->
  exists f d,
    frame_of fields = Return f /\
    decode_message f = Return d /\
    dict_get d key = Some v.
Proof.
  intros fields Hv Hs Hlast.
  destruct (encode_decode_frame fields Hv Hs) as (f & He & _ & Hdec).
  exists f, (assign_all fields []). split; [exact He|]. split.
  - rewrite <- (app_nil_r f) at 1. apply Hdec.
  - now apply assign_all_last.
Qed.

Lemma decode_duplicate_key_last_wins_witness :
  exists f d,
    frame_of [([107], T_int64 1); ([120], T_string [97]);
              ([107], T_binary [x2a]); ([121], T_uint64 7)] = Return f /\
    decode_message f = Return d /\
    dict_get d [107] = Some (T_binary [x2a]).
Proof.
  apply (decode_duplicate_key_last_wins
           [([107], T_int64 1); ([120], T_string [97])]
           [([121], T_uint64 7)] [107] (T_binary [x2a])).
  - vm_compute. reflexivity.
  - vm_compute. discriminate.
  - simpl. intros [H|[]]. discriminate.
Defined.

(** ** Truncated and unknown fields *)

Lemma unpack_unsigned_Return_length (size : nat) (b : bytes) (v : Z) :
  Struct.unpack_unsigned size b = Return v -> length b = size.
Proof.
  unfold Struct.unpack_unsigned.
  destruct (Nat.eqb_spec (length b) size); [auto | discriminate].
Qed.

Lemma unpack_short_slice (size : nat) (payload : bytes) (i : nat) :
  (length payload < i + S size)%nat ->
  Struct.unpack_unsigned (S size) (slice payload i (i + S size))
  = Raise struct_error.
Proof.
  intros H. apply unpack_unsigned_short. rewrite slice_length. lia.
Qed.

Lemma unpack_I64_short_slice (payload : bytes) (i : nat) :
  (length payload < i + 8)%nat ->
  Struct.unpack FMT_I64 (slice payload i (i + 8)) = Raise struct_error.
Proof.
  intros H. unfold Struct.unpack, Struct.unpack_I64. now rewrite unpack_short_slice.
Qed.

(** A short read makes the turn raise. *)
Lemma decode_field_short (payload : bytes) (offset : nat) (result : dict) (e : error) :
  short_read payload offset e ->
  (offset < length payload)%nat /\
  decode_field payload offset result = Raise e.
Proof.
  intros H. destruct H as
      [ Hlt Hs
      | kl Hu Hs Hd
      | kl key Hu Hs Hd
      | kl key Hu Hs Hd
      | kl key tc at_type Hu Hd Ht Htc Hs
      | kl key tc at_type Hu Hd Ht Htc Hs ].
  - split; [exact Hlt|]. unfold decode_field, Struct.unpack.
    now rewrite unpack_short_slice.
  - pose proof (unpack_unsigned_Return_length _ _ _ Hu) as Hl.
    rewrite slice_length in Hl. split; [lia|].
    unfold decode_field. rewrite Hu. cbn [bind]. now rewrite Hd.
  - pose proof (unpack_unsigned_Return_length _ _ _ Hu) as Hl.
    rewrite slice_length in Hl. split; [lia|].
    unfold decode_field. rewrite Hu. cbn [bind]. rewrite Hd. cbn [bind].
    unfold Struct.unpack. now rewrite unpack_short_slice by lia.
  - pose proof (unpack_unsigned_Return_length _ _ _ Hu) as Hl.
    rewrite slice_length in Hl. split; [lia|].
    unfold decode_field. rewrite Hu. cbn [bind]. rewrite Hd. cbn [bind].
    unfold Struct.unpack. now rewrite unpack_short_slice by lia.
  - pose proof (unpack_unsigned_Return_length _ _ _ Hu) as Hl.
    rewrite slice_length in Hl. split; [lia|].
    unfold decode_field. rewrite Hu. cbn [bind].
    fold at_type. rewrite Hd. cbn [bind]. rewrite Ht. cbn [bind].
    unfold Struct.unpack.
    destruct Htc as [-> | [-> | ->]].
    + change (TYPE_INT64 =? TYPE_INT64) with true. cbv iota.
      now rewrite unpack_I64_short_slice.
    + change (TYPE_UINT64 =? TYPE_INT64) with false.
      change (TYPE_UINT64 =? TYPE_UINT64) with true. cbv iota.
      now rewrite unpack_short_slice.
    + change (TYPE_FLOAT64 =? TYPE_INT64) with false.
      change (TYPE_FLOAT64 =? TYPE_UINT64) with false.
      change (TYPE_FLOAT64 =? TYPE_FLOAT64) with true. cbv iota.
      now rewrite unpack_short_slice.
  - pose proof (unpack_unsigned_Return_length _ _ _ Hu) as Hl.
    rewrite slice_length in Hl. split; [lia|].
    unfold decode_field. rewrite Hu. cbn [bind].
    fold at_type. rewrite Hd. cbn [bind]. rewrite Ht. cbn [bind].
    unfold Struct.unpack.
    destruct Htc as [-> | ->].
    + change (TYPE_STRING =? TYPE_INT64) with false.
      change (TYPE_STRING =? TYPE_UINT64) with false.
      change (TYPE_STRING =? TYPE_FLOAT64) with false.
      change (TYPE_STRING =? TYPE_STRING) with true. cbv iota.
      now rewrite unpack_short_slice.
    + change (TYPE_BINARY =? TYPE_INT64) with false.
      change (TYPE_BINARY =? TYPE_UINT64) with false.
      change (TYPE_BINARY =? TYPE_FLOAT64) with false.
      change (TYPE_BINARY =? TYPE_STRING) with false.
      change (TYPE_BINARY =? TYPE_BINARY) with true. cbv iota.
      now rewrite unpack_short_slice.
Qed.

(** What a turn that raises does to the whole call. *)
Lemma decode_message_turn_raises (message_bytes payload : bytes)
      (offset : nat) (result : dict) (e : error) :
  covers message_bytes payload ->
  reaches payload offset result ->
  (offset < length payload)%nat ->
  decode_field payload offset result = Raise e ->
  decode_message message_bytes = Raise e.
Proof.
  intros Hc Hr Hlt Hf.
  rewrite (decode_message_covers _ _ Hc).
  rewrite (decode_loop_from _ _ _ Hr (S (length payload))) by lia.
  simpl. destruct (Nat.ltb_spec offset (length payload)); [|lia].
  now rewrite Hf.
Qed.

(** C1, as amended.  When the buffer covers its declared length and the
    parsing loop comes to a turn in which the payload bytes left do not
    suffice for the 2-byte key length, the key bytes, the 1-byte type
    code, an 8-byte scalar or the 4-byte length of a value,
    [decode_message] raises and returns no mapping.  The exception is
    [struct.error], the failure of [struct.unpack] on a short buffer;
    only when it is the key bytes that are short, and those present are
    not valid UTF-8, it is [UnicodeDecodeError]. *)
Theorem decode_short_read_raises (message_bytes payload : bytes)
        (offset : nat) (result : dict) (e : error) :
  covers message_bytes payload ->
  reaches payload offset result ->
  short_read payload offset e ->
  decode_message message_bytes = Raise e /\
  (e = struct_error \/ e = UnicodeDecodeError).
Proof.
  intros Hc Hr Hs. split.
  - destruct (decode_field_short payload offset result e Hs) as [Hlt Hf].
    eapply decode_message_turn_raises; eauto.
  - destruct Hs; auto.
Qed.

Lemma decode_short_read_raises_witness :
  (* one whole field "a" = int64 30, then a key of declared length 2 with
     a single byte left *)
  decode_message [x00; x00; x00; x0f;
                  x00; x01; x61; x01; x00; x00; x00; x00; x00; x00; x00; x1e;
                  x00; x02; x62]
  = Raise struct_error
  /\ (struct_error = struct_error \/ struct_error = UnicodeDecodeError).
Proof.
  apply (decode_short_read_raises
           [x00; x00; x00; x0f;
            x00; x01; x61; x01; x00; x00; x00; x00; x00; x00; x00; x1e;
            x00; x02; x62]
           [x00; x01; x61; x01; x00; x00; x00; x00; x00; x00; x00; x1e;
            x00; x02; x62]
           12 [([97], T_int64 30)] struct_error).
  - exists 15. repeat split; vm_compute; try reflexivity; discriminate.
  - apply (reaches_turn _ 0%nat [] 12%nat [([97], T_int64 30)]).
    + apply reaches_start.
    + simpl. lia.
    + vm_compute. reflexivity.
  - apply (short_key_decodable _ _ 2 [98]).
    + vm_compute. reflexivity.
    + simpl. lia.
    + vm_compute. reflexivity.
Defined.

(** C1, as stated, fails, in two ways.

    Short data.  In the first buffer the declared length (11) is covered
    and the one field, under key "a", is a binary value that declares 10
    bytes of data where 3 are left: [decode_message] raises nothing and
    returns the mapping with the 3 bytes.

    Short key.  In the second buffer the declared length (3) is covered
    and the key declares 2 bytes where one, 0xC3, is left: the exception
    is [UnicodeDecodeError], raised on the byte that is there, and not
    the [struct.error] of a short buffer. *)
Lemma decode_short_data_returns_mapping :
  let message_bytes := [x00; x00; x00; x0b;
                        x00; x01; x61; x05; x00; x00; x00; x0a; x01; x02; x03] in
  let payload := [x00; x01; x61; x05; x00; x00; x00; x0a; x01; x02; x03] in
  let message_bytes' := [x00; x00; x00; x03; x00; x02; xc3] in
  let payload' := [x00; x02; xc3] in
  (covers message_bytes payload /\
   reaches payload 0 [] /\
   short_data payload 0 /\
   decode_message message_bytes = Return [([97], T_binary [x01; x02; x03])])
  /\
  (covers message_bytes' payload' /\
   reaches payload' 0 [] /\
   short_read payload' 0 UnicodeDecodeError /\
   decode_message message_bytes' = Raise UnicodeDecodeError).
Proof.
  intros message_bytes payload message_bytes' payload'. split.
  - split; [|split; [|split]].
    + exists 11. repeat split; vm_compute; try reflexivity; discriminate.
    + apply reaches_start.
    + exists 1, [97], 5, 10. cbv zeta.
      repeat split; try (vm_compute; reflexivity).
      * right. reflexivity.
      * simpl. lia.
    + vm_compute. reflexivity.
  - split; [|split; [|split]].
    + exists 3. repeat split; vm_compute; try reflexivity; discriminate.
    + apply reaches_start.
    + apply (short_key_undecodable _ _ 2).
      * vm_compute. reflexivity.
      * simpl. lia.
      * vm_compute. reflexivity.
    + vm_compute. reflexivity.
Qed.

(** The same with a string value: 2 of the 10 declared bytes are left. *)
Example decode_short_string_returns_mapping :
  decode_message [x00; x00; x00; x0a;
                  x00; x01; x61; x04; x00; x00; x00; x0a; x68; x69]
  = Return [([97], T_string [104; 105])].
Proof. vm_compute. reflexivity. Qed.

(** C7. When the buffer covers its declared length and the parsing loop
    comes to a field whose key length and key are read and whose type
    code byte is none of 1, 2, 3, 4, 5, [decode_message] raises
    [ValueError("不明な型コード")] (unknown type code). *)
Theorem decode_unknown_type_code (message_bytes payload : bytes)
        (offset : nat) (result : dict) (key_length : Z) (key : str) (type_code : Z) :
  let at_type := (offset + 2 + Z.to_nat key_length)%nat in
  covers message_bytes payload ->
  reaches payload offset result ->
  Struct.unpack FMT_U16 (slice payload offset (offset + 2)) = Return key_length ->
  Utf8.decode (slice payload (offset + 2) at_type) = Return key ->
  Struct.unpack FMT_U8 (slice payload at_type (at_type + 1)) = Return type_code ->
  ~ (1 <= type_code <= 5) ->
  decode_message message_bytes = Raise ValueError_unknown_type_code.
Proof.
  intros at_type Hc Hr Hu Hd Ht Htc.
  pose proof (unpack_unsigned_Return_length _ _ _ Hu) as Hl.
  rewrite slice_length in Hl.
  eapply decode_message_turn_raises; [exact Hc | exact Hr | lia |].
  unfold decode_field. rewrite Hu. cbn [bind]. fold at_type.
  rewrite Hd. cbn [bind]. rewrite Ht. cbn [bind].
  unfold TYPE_INT64, TYPE_UINT64, TYPE_FLOAT64, TYPE_STRING, TYPE_BINARY.
  destruct (Z.eqb_spec type_code 1); [lia|].
  destruct (Z.eqb_spec type_code 2); [lia|].
  destruct (Z.eqb_spec type_code 3); [lia|].
  destruct (Z.eqb_spec type_code 4); [lia|].
  destruct (Z.eqb_spec type_code 5); [lia|].
  reflexivity.
Qed.

Lemma decode_unknown_type_code_witness :
  (* "a" = int64 30, then key "b" with type code 6 and eight more bytes *)
  decode_message [x00; x00; x00; x18;
                  x00; x01; x61; x01; x00; x00; x00; x00; x00; x00; x00; x1e;
                  x00; x01; x62; x06; x00; x00; x00; x00; x00; x00; x00; x01]
  = Raise ValueError_unknown_type_code.
Proof.
  apply (decode_unknown_type_code
           [x00; x00; x00; x18;
            x00; x01; x61; x01; x00; x00; x00; x00; x00; x00; x00; x1e;
            x00; x01; x62; x06; x00; x00; x00; x00; x00; x00; x00; x01]
           [x00; x01; x61; x01; x00; x00; x00; x00; x00; x00; x00; x1e;
            x00; x01; x62; x06; x00; x00; x00; x00; x00; x00; x00; x01]
           12 [([97], T_int64 30)] 1 [98] 6).
  - exists 24. repeat split; vm_compute; try reflexivity; discriminate.
  - apply (reaches_turn _ 0%nat [] 12%nat [([97], T_int64 30)]).
    + apply reaches_start.
    + simpl. lia.
    + vm_compute. reflexivity.
  - vm_compute. reflexivity.
  - vm_compute. reflexivity.
  - vm_compute. reflexivity.
  - lia.
Defined.

(* ================================================================== *)
(** * The encoder's key length *)

Lemma encode_fields_app (pre rest : list (str * tagged)) (parts : list bytes) :
  encode_fields (pre ++ rest) parts
  = (parts' <- encode_fields pre parts ;; encode_fields rest parts').
Proof.
  revert parts. induction pre as [|[key tv] pre IH]; intros parts;
    cbn [encode_fields app bind].
  - reflexivity.
  - destruct (Utf8.encode key) as [kb|e]; cbn [bind]; [|reflexivity].
    destruct (Struct.pack FMT_U16 (len kb)) as [kl|e]; cbn [bind]; [|reflexivity].
    destruct (encode_value (parts ++ [kl; kb]) tv) as [parts1|e]; cbn [bind];
      [apply IH | reflexivity].
Qed.

Lemma encode_fields_long_key (key : str) (tv : tagged) (key_bytes : bytes)
      (rest : list (str * tagged)) (parts : list bytes) :
  Utf8.encode key = Return key_bytes ->
  65535 < len key_bytes ->
  encode_fields ((key, tv) :: rest) parts = Raise struct_error.
Proof.
  intros He Hl. simpl. rewrite He. cbn [bind].
  unfold Struct.pack, Struct.pack_unsigned.
  change (256 ^ Z.of_nat 2) with 65536.
  destruct (Z.ltb_spec (len key_bytes) 65536); [lia|].
  now rewrite andb_false_r.
Qed.

(** A tuple whose tag is none of the five makes [encode_message] raise
    [ValueError("不明な型: ...")] (unknown type) when the fields before it
    are valid and its key is; no bytes are returned. *)
Theorem encode_unknown_type_raises (pre post : list (str * tagged))
        (key : str) (typ : string) :
  valid_fields pre = true ->
  valid_key key = true ->
  encode_message (pre ++ (key, T_other typ) :: post) = Raise ValueError_unknown_type.
Proof.
  intros Hv Hk.
  destruct (encode_fields_reaches pre Hv []) as (parts & _ & Hp & _).
  destruct (valid_key_encode key Hk) as (kb & kl & Hkb & Hkl & _).
  unfold encode_message, items.
  rewrite encode_fields_app, Hp. cbn [bind encode_fields].
  rewrite Hkb. cbn [bind]. rewrite Hkl. reflexivity.
Qed.

Lemma encode_unknown_type_raises_witness :
  encode_message ([([97], T_int64 1)] ++ ([98], T_other "float") :: [([99], T_uint64 2)])
  = Raise ValueError_unknown_type.
Proof.
  apply (encode_unknown_type_raises
           [([97], T_int64 1)] [([99], T_uint64 2)] [98] "float");
    vm_compute; reflexivity.
Defined.

(** C9. A message with a key whose UTF-8 encoding is longer than 65535
    bytes is refused by [encode_message]: an exception is raised and no
    bytes are returned.  When the fields before that key are valid, the
    exception is the [struct.error] of packing the key length on two
    bytes. *)
Theorem encode_long_key_raises (pre post : list (str * tagged))
        (key : str) (tv : tagged) (key_bytes : bytes) :
  let m := pre ++ (key, tv) :: post in
  Utf8.encode key = Return key_bytes ->
  65535 < len key_bytes ->
  (exists e, encode_message m = Raise e) /\
  (valid_fields pre = true -> encode_message m = Raise struct_error).
Proof.
  intros m He Hl.
  assert (Hm : forall parts, encode_fields pre [] = Return parts ->
               encode_message m = Raise struct_error).
  { intros parts Hp. unfold encode_message, items, m.
    rewrite encode_fields_app, Hp. cbn [bind].
    now rewrite (encode_fields_long_key key tv key_bytes post parts He Hl). }
  split.
  - destruct (encode_fields pre []) as [parts|e] eqn:Hp.
    + exists struct_error. eapply Hm; eauto.
    + exists e. unfold encode_message, items, m.
      now rewrite encode_fields_app, Hp.
  - intros Hv.
    destruct (encode_fields_reaches pre Hv []) as (parts & _ & Hp & _).
    eapply Hm; eauto.
Qed.

Lemma utf8_encode_repeat_a (n : nat) :
  Utf8.encode (repeat 97 n) = Return (repeat x61 n).
Proof.
  induction n as [|n IH]; [reflexivity|].
  cbn [repeat Utf8.encode]. rewrite IH. reflexivity.
Qed.

Lemma long_key_bytes_len : len long_key_bytes = 65536.
Proof.
  unfold len, long_key_bytes. rewrite repeat_length. apply Z2Nat.id. lia.
Qed.

Lemma encode_long_key_raises_witness :
  (exists e,
     encode_message ([([97], T_int64 1)]
                     ++ (long_key, T_string [104]) :: [([98], T_uint64 2)])
     = Raise e) /\
  (valid_fields [([97], T_int64 1)] = true ->
   encode_message ([([97], T_int64 1)]
                   ++ (long_key, T_string [104]) :: [([98], T_uint64 2)])
   = Raise struct_error).
Proof.
  apply (encode_long_key_raises
           [([97], T_int64 1)] [([98], T_uint64 2)]
           long_key (T_string [104]) long_key_bytes).
  - apply utf8_encode_repeat_a.
  - rewrite long_key_bytes_len. lia.
Defined.

(* ================================================================== *)
(** * The transport *)

Lemma available_cons (chunk : bytes) (sock : socket) :
  chunk <> [] -> available (chunk :: sock) = chunk ++ available sock.
Proof. destruct chunk; [congruence | reflexivity]. Qed.

(** The loop of [recvall], from any turn: what it returns is what it
    holds followed by the bytes still wanted, as far as the socket has
    them. *)
Lemma recvall_loop_data (budget : nat) :
  forall (sock : socket) (n : nat) (data : bytes),
    (n - length data <= budget)%nat ->
    fst (recvall_loop budget sock n data)
    = data ++ firstn (n - length data) (available sock).
Proof.
  induction budget as [|budget IH]; intros sock n data Hb; cbn [recvall_loop];
    destruct (Nat.ltb_spec (length data) n) as [Hlt|Hge];
    try (replace (n - length data)%nat with 0%nat by lia;
         cbn [fst]; now rewrite firstn_O, app_nil_r);
    try lia.
  destruct sock as [|chunk sock']; cbn [recv].
  - cbn [fst available]. now rewrite firstn_nil, app_nil_r.
  - destruct (Nat.leb_spec (length chunk) (n - length data)) as [Hle|Hgt].
    + destruct chunk as [|b chunk'].
      * cbn [fst available]. now rewrite firstn_nil, app_nil_r.
      * rewrite IH by (rewrite length_app; cbn [length] in *; lia).
        rewrite available_cons by discriminate.
        rewrite firstn_app, (firstn_all2 (b :: chunk')) by exact Hle.
        rewrite length_app, <- app_assoc. do 3 f_equal. lia.
    + assert (Hp : length (firstn (n - length data) chunk) = (n - length data)%nat)
        by (rewrite length_firstn; lia).
      destruct (firstn (n - length data) chunk) as [|b p] eqn:Ep.
      * cbn [length] in Hp. lia.
      * rewrite IH by (rewrite length_app; lia).
        rewrite length_app, Hp.
        replace (n - (length data + (n - length data)))%nat with 0%nat by lia.
        rewrite firstn_O, app_nil_r.
        rewrite available_cons by (intros ->; cbn [length] in Hgt; lia).
        rewrite firstn_app, Ep.
        replace (n - length data - length chunk)%nat with 0%nat by lia.
        now rewrite firstn_O, app_nil_r.
Qed.

Lemma recvall_data (sock : socket) (n : nat) :
  fst (recvall sock n) = firstn n (available sock).
Proof.
  unfold recvall. rewrite recvall_loop_data by (simpl; lia).
  simpl. now rewrite Nat.sub_0_r.
Qed.

(** C5. For every socket, seen as the sequence of chunks its reads
    deliver, and every count [n], [recvall] returns the bytes read up to
    [n] bytes or up to the first empty read: the first [n] bytes the
    socket has before it closes, [min n (bytes before close)] of them,
    which may be fewer than [n].  It returns in every case: it raises
    nothing. *)
Theorem recvall_returns_available (sock : socket) (n : nat) :
  fst (recvall sock n) = firstn n (available sock) /\
  length (fst (recvall sock n)) = Nat.min n (length (available sock)).
Proof.
  split; [apply recvall_data|]. rewrite recvall_data. apply length_firstn.
Qed.

(** Chunks of 2, 1 and 3 bytes, then the close, then bytes never read. *)
Example recvall_chunks :
  let sock := [[x01; x02]; [x03]; [x04; x05; x06]; []; [x07]] in
  recvall sock 4 = ([x01; x02; x03; x04], [[x05; x06]; []; [x07]]) /\
  recvall sock 8 = ([x01; x02; x03; x04; x05; x06], [[x07]]) /\
  recvall sock 0 = ([], sock).
Proof. repeat split. Qed.

(** C4. [recv_message] reads 4 bytes with [recvall] and raises
    [RuntimeError("ヘッダの受信に失敗しました")] (header) when fewer than 4
    came; otherwise it takes them as the big-endian length [L], reads
    [L] bytes with [recvall] and raises
    [RuntimeError("ペイロードの受信に失敗しました")] (payload) when fewer than
    [L] came; otherwise it returns what [decode_message] makes of
    header and payload put together. *)
Theorem recv_message_steps (sock : socket) :
  let header := fst (recvall sock 4) in
  let sock1 := snd (recvall sock 4) in
  let total_length := from_bytes_be header in
  let payload := fst (recvall sock1 (Z.to_nat total_length)) in
  let sock2 := snd (recvall sock1 (Z.to_nat total_length)) in
  recv_message sock
  = if len header <? 4 then (Raise RuntimeError_header, sock1)
    else if len payload <? total_length then (Raise RuntimeError_payload, sock2)
    else (decode_message (header ++ payload), sock2).
Proof.
  intros header sock1 total_length payload sock2.
  unfold recv_message.
  assert (Hlen : length header = Nat.min 4 (length (available sock)))
    by (unfold header; rewrite recvall_data; apply length_firstn).
  subst payload sock2 total_length. subst header sock1.
  destruct (recvall sock 4) as [header sock1]. cbn [fst snd] in *.
  destruct (Z.ltb_spec (len header) 4) as [Hs|Hs]; [reflexivity|].
  unfold Struct.unpack, Struct.unpack_unsigned.
  assert (H4 : length header = 4%nat) by (unfold len in Hs; lia).
  rewrite H4. cbn [Nat.eqb].
  destruct (recvall sock1 (Z.to_nat (from_bytes_be header))) as [payload sock2].
  reflexivity.
Qed.

(** What is left in the socket after [recvall] has had its [n] bytes. *)
Lemma recvall_loop_rest (budget : nat) :
  forall (sock : socket) (n : nat) (data : bytes),
    (n - length data <= budget)%nat ->
    (n - length data <= length (available sock))%nat ->
    available (snd (recvall_loop budget sock n data))
    = skipn (n - length data) (available sock).
Proof.
  induction budget as [|budget IH]; intros sock n data Hb Ha; cbn [recvall_loop];
    destruct (Nat.ltb_spec (length data) n) as [Hlt|Hge];
    try (replace (n - length data)%nat with 0%nat by lia; reflexivity);
    try lia.
  destruct sock as [|chunk sock']; cbn [recv].
  - cbn [available length] in Ha. lia.
  - destruct (Nat.leb_spec (length chunk) (n - length data)) as [Hle|Hgt].
    + destruct chunk as [|b chunk'].
      * cbn [available length] in Ha. lia.
      * rewrite available_cons in * by discriminate.
        rewrite length_app in Ha.
        rewrite IH by (rewrite length_app; cbn [length] in *; lia).
        rewrite skipn_app, (skipn_all2 (b :: chunk')) by exact Hle.
        rewrite length_app. cbn [app]. f_equal. lia.
    + assert (Hp : length (firstn (n - length data) chunk) = (n - length data)%nat)
        by (rewrite length_firstn; lia).
      assert (Hs : skipn (n - length data) chunk <> []).
      { intros E. apply (f_equal (@length byte)) in E.
        rewrite length_skipn in E. cbn [length] in E. lia. }
      destruct (firstn (n - length data) chunk) as [|b p] eqn:Ep.
      * cbn [length] in Hp. lia.
      * assert (Hfull : (n <= length (data ++ b :: p))%nat)
          by (rewrite length_app, Hp; lia).
        destruct budget as [|budget']; cbn [recvall_loop];
          destruct (Nat.ltb_spec (length (data ++ b :: p)) n); try lia;
          cbn [snd]; rewrite available_cons by exact Hs;
          rewrite available_cons by (intros ->; cbn [length] in Hgt; lia);
          rewrite skipn_app;
          replace (n - length data - length chunk)%nat with 0%nat by lia;
          reflexivity.
Qed.

Lemma recvall_rest (sock : socket) (n : nat) :
  (n <= length (available sock))%nat ->
  available (snd (recvall sock n)) = skipn n (available sock).
Proof.
  intros H. unfold recvall.
  rewrite recvall_loop_rest by (simpl; lia).
  simpl. now rewrite Nat.sub_0_r.
Qed.

Lemma firstn_plus {A : Type} (n m : nat) (l : list A) :
  firstn (n + m) l = firstn n l ++ firstn m (skipn n l).
Proof.
  revert l. induction n as [|n IH]; intros [|x l]; simpl;
    try reflexivity.
  - now rewrite firstn_nil.
  - now rewrite IH.
Qed.

(** However the bytes come in chunks, [recv_message] sees the bytes the
    socket has before it closes: fewer than 4 is the header failure;
    fewer than the 4 and the length they declare is the payload
    failure; otherwise the first frame is put together again and
    decoded. *)
Theorem recv_message_reassembles (sock : socket) :
  let a := available sock in
  let total_length := from_bytes_be (firstn 4 a) in
  fst (recv_message sock)
  = if len a <? 4 then Raise RuntimeError_header
    else if len a <? 4 + total_length then Raise RuntimeError_payload
    else decode_message (firstn (4 + Z.to_nat total_length) a).
Proof.
  intros a total_length. unfold recv_message.
  pose proof (recvall_data sock 4) as Hh.
  pose proof (recvall_rest sock 4) as Hr.
  destruct (recvall sock 4) as [header sock1]. cbn [fst snd] in *.
  fold a in Hh, Hr.
  assert (Hlen : length header = Nat.min 4 (length a))
    by (rewrite Hh; apply length_firstn).
  destruct (Z.ltb_spec (len header) 4) as [Hs|Hs];
    destruct (Z.ltb_spec (len a) 4) as [Hs'|Hs'];
    try reflexivity; unfold len in *; try lia.
  unfold Struct.unpack, Struct.unpack_unsigned.
  replace (length header) with 4%nat by lia. cbn [Nat.eqb].
  rewrite Hh. fold total_length.
  pose proof (from_bytes_be_range (firstn 4 a)) as Hrange.
  fold total_length in Hrange.
  pose proof (recvall_data sock1 (Z.to_nat total_length)) as Hp.
  destruct (recvall sock1 (Z.to_nat total_length)) as [payload sock2].
  cbn [fst snd] in *. rewrite Hr in Hp by lia.
  assert (Hpl : length payload
                = Nat.min (Z.to_nat total_length) (length a - 4)).
  { rewrite Hp, length_firstn, length_skipn. reflexivity. }
  destruct (Z.ltb_spec (Z.of_nat (length payload)) total_length) as [Hq|Hq];
    destruct (Z.ltb_spec (Z.of_nat (length a)) (4 + total_length)) as [Hq'|Hq'];
    try reflexivity; try lia.
  cbn [fst]. rewrite Hp, firstn_plus. reflexivity.
Qed.

(** A valid frame cut into chunks of 1, 6, 2 and 9 bytes, with the
    start of a next frame behind it. *)
Example recv_message_chunked :
  recv_message [[x00]; [x00; x00; x0e; x00; x03; x61]; [x67; x65];
                [x01; x00; x00; x00; x00; x00; x00; x00; x1e]; [x00; x00]]
  = (Return [([97; 103; 101], T_int64 30)], [[x00; x00]]).
Proof. vm_compute. reflexivity. Qed.

(** A peer that closes after three bytes of header, and one that closes
    in the middle of the payload. *)
Example recv_message_closed :
  fst (recv_message [[x00; x00]; [x00]; []]) = Raise RuntimeError_header /\
  fst (recv_message [[x00; x00; x00; x0e; x00; x03]; [x61]; []])
  = Raise RuntimeError_payload.
Proof. split; vm_compute; reflexivity. Qed.

(** One buffer for each kind of short read of [short_read], with what
    [decode_message] raises on it. *)
Example decode_short_reads :
  (* one byte where the key length wants two *)
  decode_message [x00; x00; x00; x01; x00] = Raise struct_error /\
  (* key of declared length 2, one byte "b" left *)
  decode_message [x00; x00; x00; x03; x00; x02; x62] = Raise struct_error /\
  (* key "a" read, nothing left for the type code *)
  decode_message [x00; x00; x00; x03; x00; x01; x61] = Raise struct_error /\
  (* int64 with 7 of its 8 bytes *)
  decode_message [x00; x00; x00; x0b; x00; x01; x61; x01;
                  x00; x00; x00; x00; x00; x00; x00] = Raise struct_error /\
  (* float64 with none of its 8 bytes *)
  decode_message [x00; x00; x00; x04; x00; x01; x61; x03] = Raise struct_error /\
  (* string with 3 of the 4 bytes of its length *)
  decode_message [x00; x00; x00; x07; x00; x01; x61; x04; x00; x00; x00]
  = Raise struct_error.
Proof. repeat split; vm_compute; reflexivity. Qed.

(* ================================================================== *)
(** * When the encoder returns *)

Lemma utf8_encode_encodable (s : str) (b : bytes) :
  forallb in_unicode s = true ->
  Utf8.encode s = Return b ->
  encodable s = true.
Proof.
  revert b. induction s as [|c s IH]; intros b Hs He; [reflexivity|].
  cbn [forallb] in Hs. apply andb_prop in Hs as [Hc Hs].
  cbn [Utf8.encode] in He.
  apply bind_Return in He as (bc & Hbc & He).
  apply bind_Return in He as (bs & Hbs & _).
  cbn [encodable forallb]. fold (encodable s). rewrite (IH bs Hs Hbs), andb_true_r.
  unfold is_scalar. unfold in_unicode in Hc. rewrite Hc. cbn [andb].
  unfold Utf8.encode_char in Hbc. unfold Utf8.is_surrogate in *.
  destruct (Z.ltb_spec c 0x80);
    [destruct (Z.leb_spec 0xD800 c); [lia | reflexivity]|].
  destruct (Z.ltb_spec c 0x800);
    [destruct (Z.leb_spec 0xD800 c); [lia | reflexivity]|].
  destruct (Z.ltb_spec c 0x10000).
  - destruct ((0xD800 <=? c) && (c <=? 0xDFFF)); [discriminate | reflexivity].
  - destruct (Z.leb_spec c 0xDFFF); [lia|]. now rewrite andb_false_r.
Qed.

Lemma encode_value_valid (parts parts' : list bytes) (tv : tagged) :
  well_typed_value tv = true ->
  encode_value parts tv = Return parts' ->
  valid_value tv = true.
Proof.
  destruct tv as [v|v|v|s|b|t]; cbn [well_typed_value encode_value valid_value];
    intros Hw He.
  - apply bind_Return in He as (tc & _ & He).
    apply bind_Return in He as (vb & Hvb & _).
    apply pack_I64_inv in Hvb as [[H1 H2] _].
    apply Z.leb_le in H1. apply Z.ltb_lt in H2. now rewrite H1, H2.
  - apply bind_Return in He as (tc & _ & He).
    apply bind_Return in He as (vb & Hvb & _).
    apply pack_unsigned_inv in Hvb as [[H1 H2] _].
    change (256 ^ Z.of_nat 8) with (2 ^ 64) in H2.
    apply Z.leb_le in H1. apply Z.ltb_lt in H2. now rewrite H1, H2.
  - exact Hw.
  - apply bind_Return in He as (tc & _ & He).
    apply bind_Return in He as (sb & Hsb & He).
    apply bind_Return in He as (vl & Hvl & _).
    apply pack_unsigned_inv in Hvl as [[_ H2] _].
    change (256 ^ Z.of_nat 4) with (2 ^ 32) in H2.
    rewrite (utf8_encode_encodable s sb Hw Hsb). cbn [andb].
    rewrite <- (utf8_encode_len s sb Hsb). apply Z.leb_le. lia.
  - apply bind_Return in He as (tc & _ & He).
    apply bind_Return in He as (vl & Hvl & _).
    apply pack_unsigned_inv in Hvl as [[_ H2] _].
    change (256 ^ Z.of_nat 4) with (2 ^ 32) in H2.
    apply Z.leb_le. lia.
  - discriminate.
Qed.

Lemma encode_fields_valid (its : list (str * tagged)) :
  forall parts parts',
    well_typed its = true ->
    encode_fields its parts = Return parts' ->
    valid_fields its = true.
Proof.
  induction its as [|[key tv] its IH]; intros parts parts' Hw He; [reflexivity|].
  cbn [well_typed forallb fst snd] in Hw.
  apply andb_prop in Hw as [Hf Hw]. apply andb_prop in Hf as [Hk Htv].
  cbn [encode_fields] in He.
  apply bind_Return in He as (kb & Hkb & He).
  apply bind_Return in He as (kl & Hkl & He).
  apply bind_Return in He as (parts1 & Hev & He).
  cbn [valid_fields forallb]. fold (valid_fields its).
  rewrite (IH parts1 parts' Hw He), andb_true_r.
  unfold valid_field, valid_key. cbn [fst snd].
  rewrite (utf8_encode_encodable key kb Hk Hkb).
  rewrite (encode_value_valid _ _ _ Htv Hev), andb_true_r. cbn [andb].
  apply pack_unsigned_inv in Hkl as [[_ H2] _].
  change (256 ^ Z.of_nat 2) with 65536 in H2.
  rewrite <- (utf8_encode_len key kb Hkb). apply Z.leb_le. lia.
Qed.

(** [encode_message] returns exactly on the valid messages: every key
    of at most 65535 UTF-8 bytes and free of surrogates, every integer
    in the range of its tag, every string free of surrogates, every
    string and binary of at most 2^32 - 1 bytes, no tag but the five,
    and a payload of at most 2^32 - 1 bytes; on every other message it
    raises. *)
Theorem encode_message_returns_iff (m : dict) :
  well_typed m = true ->
  ((exists f, encode_message m = Return f) <-> valid_message m = true).
Proof.
  intros Hw. unfold valid_message, items. split.
  - intros [f Hf]. unfold encode_message, items in Hf.
    apply bind_Return in Hf as (parts & Hp & Hf).
    apply bind_Return in Hf as (header & Hh & _).
    pose proof (encode_fields_valid m [] parts Hw Hp) as Hv.
    rewrite Hv. cbn [andb].
    destruct (encode_fields_reaches m Hv []) as (parts' & fbs & Hp' & Hc & Hl & _).
    rewrite Hp in Hp'. apply Return_inj in Hp'. subst parts'.
    cbn [concat app] in Hc. rewrite Hc in Hh.
    apply pack_unsigned_inv in Hh as [[_ H2] _].
    change (256 ^ Z.of_nat 4) with (2 ^ 32) in H2.
    apply Z.leb_le. lia.
  - intros H. apply andb_prop in H as [Hv Hs]. apply Z.leb_le in Hs.
    destruct (encode_decode_frame m Hv Hs) as (f & He & _). eauto.
Qed.

Lemma encode_message_returns_iff_witness :
  (exists f, encode_message [([97], T_int64 (2 ^ 63))] = Return f)
  <-> valid_message [([97], T_int64 (2 ^ 63))] = true.
Proof.
  apply (encode_message_returns_iff [([97], T_int64 (2 ^ 63))]).
  vm_compute. reflexivity.
Defined.

Lemma encode_message_valid (m : dict) (f : bytes) :
  well_typed m = true ->
  encode_message m = Return f ->
  valid_fields m = true /\ payload_size m <= 2 ^ 32 - 1 /\
  len f = 4 + payload_size m.
Proof.
  intros Hw Hf. pose proof Hf as Hf'. unfold encode_message, items in Hf.
  apply bind_Return in Hf as (parts & Hp & Hf).
  apply bind_Return in Hf as (header & Hh & _).
  pose proof (encode_fields_valid m [] parts Hw Hp) as Hv.
  destruct (encode_fields_reaches m Hv []) as (parts' & fbs & Hp' & Hc & Hl & _).
  rewrite Hp in Hp'. apply Return_inj in Hp'. subst parts'.
  cbn [concat app] in Hc. rewrite Hc in Hh.
  apply pack_unsigned_inv in Hh as [[_ H2] _].
  change (256 ^ Z.of_nat 4) with (2 ^ 32) in H2.
  assert (Hs : payload_size m <= 2 ^ 32 - 1) by lia.
  split; [exact Hv|]. split; [exact Hs|].
  destruct (encode_decode_frame m Hv Hs) as (f' & He & Hlen & _).
  rewrite Hf' in He. apply Return_inj in He. now subst f'.
Qed.

(** Decoding what was encoded, for a message known to have encoded. *)
Lemma decode_encoded (m : dict) (f : bytes) :
  well_typed m = true ->
  is_dict m = true ->
  encode_message m = Return f ->
  forall post, decode_message (f ++ post) = Return m.
Proof.
  intros Hw Hd Hf post.
  destruct (encode_message_valid m f Hw Hf) as (Hv & Hs & _).
  destruct (encode_decode_frame m Hv Hs) as (f' & He & _ & Hdec).
  rewrite Hf in He. apply Return_inj in He. subst f'.
  rewrite Hdec, (assign_all_nodup m []) by (simpl; now apply is_dict_NoDup).
  reflexivity.
Qed.

(** The frame [encode_message] returns opens with its payload length:
    the first four bytes are the big-endian count of the bytes after
    them, and that count is the sum over the fields of 2, the key
    bytes, 1 and the value bytes (8 for a number, 4 and the data for a
    string or binary). *)
Theorem encode_message_header (m : dict) (f : bytes) :
  well_typed m = true ->
  encode_message m = Return f ->
  Struct.unpack FMT_U32 (slice f 0 4) = Return (payload_size m) /\
  len f = 4 + payload_size m.
Proof.
  intros Hw Hf.
  destruct (encode_message_valid m f Hw Hf) as (_ & Hs & Hlen).
  split; [|exact Hlen].
  apply encode_message_inv in Hf as (payload & -> & Hl).
  assert (Hp : len payload = payload_size m).
  { rewrite len_app in Hlen. unfold len in Hlen at 1.
    rewrite to_bytes_be_length in Hlen. lia. }
  rewrite <- Hp.
  replace (slice _ 0 4) with (to_bytes_be 4 (len payload)).
  - unfold Struct.unpack. apply unpack_pack_unsigned, pack_unsigned_ok.
    pose proof (len_nonneg payload).
    change (256 ^ Z.of_nat 4) with (2 ^ 32). lia.
  - symmetry. exact (slice_seg [] (to_bytes_be 4 (len payload)) payload).
Qed.

Lemma encode_message_header_witness :
  Struct.unpack FMT_U32
    (slice [x00; x00; x00; x0e; x00; x03; x61; x67; x65; x01;
            x00; x00; x00; x00; x00; x00; x00; x1e] 0 4)
  = Return (payload_size [([97; 103; 101], T_int64 30)]) /\
  len [x00; x00; x00; x0e; x00; x03; x61; x67; x65; x01;
       x00; x00; x00; x00; x00; x00; x00; x1e]
  = 4 + payload_size [([97; 103; 101], T_int64 30)].
Proof.
  apply (encode_message_header [([97; 103; 101], T_int64 30)]);
    vm_compute; reflexivity.
Defined.

(** Two messages with the same frame are the same message: the fields,
    their order and their values can be read off the bytes. *)
Theorem encode_message_injective (m1 m2 : dict) (f : bytes) :
  well_typed m1 = true -> is_dict m1 = true ->
  well_typed m2 = true -> is_dict m2 = true ->
  encode_message m1 = Return f ->
  encode_message m2 = Return f ->
  m1 = m2.
Proof.
  intros Hw1 Hd1 Hw2 Hd2 H1 H2.
  pose proof (decode_encoded m1 f Hw1 Hd1 H1 []) as E1.
  pose proof (decode_encoded m2 f Hw2 Hd2 H2 []) as E2.
  rewrite E1 in E2. now apply Return_inj in E2.
Qed.

Lemma encode_message_injective_witness :
  [([97], T_int64 1); ([98], T_string [99])]
  = [([97], T_int64 1); ([98], T_string [99])].
Proof.
  apply (encode_message_injective
           [([97], T_int64 1); ([98], T_string [99])]
           [([97], T_int64 1); ([98], T_string [99])]
           [x00; x00; x00; x15;
            x00; x01; x61; x01; x00; x00; x00; x00; x00; x00; x00; x01;
            x00; x01; x62; x04; x00; x00; x00; x01; x63]);
    vm_compute; reflexivity.
Defined.







(* ================================================================== *)
(** * What the decoder returns *)

Lemma is_scalar_intro (c : Z) :
  0 <= c <= 0x10FFFF -> ~ (0xD800 <= c <= 0xDFFF) -> is_scalar c = true.
Proof.
  intros Hr Hs. unfold is_scalar, Utf8.is_surrogate.
  destruct (Z.leb_spec 0 c); [|lia].
  destruct (Z.leb_spec c 0x10FFFF); [|lia].
  destruct (Z.leb_spec 0xD800 c); destruct (Z.leb_spec c 0xDFFF);
    try reflexivity; lia.
Qed.

Ltac bool_facts :=
  repeat match goal with
         | H : _ && _ = true |- _ => apply andb_prop in H; destruct H
         | H : negb _ = true |- _ => apply negb_true_iff in H
         | H : (_ <=? _) = true |- _ => apply Z.leb_le in H
         | H : (_ <? _) = true |- _ => apply Z.ltb_lt in H
         | H : (_ <=? _) = false |- _ => apply Z.leb_gt in H
         | H : (_ <? _) = false |- _ => apply Z.ltb_ge in H
         | H : _ && _ = false |- _ => apply andb_false_iff in H
         end.

(** What [bytes.decode('utf-8')] returns can be encoded, and encodes on
    as many bytes as were decoded. *)
Lemma utf8_decode_valid (b : bytes) :
  forall s, Utf8.decode b = Return s ->
            encodable s = true /\ utf8_len s = len b.
Proof.
  remember (length b) as n eqn:Hn.
  revert b Hn. induction n as [n IH] using lt_wf_ind. intros b Hn s.
  assert (Hrec : forall t c k,
            (length t < n)%nat -> is_scalar c = true -> utf8_size_char c = k ->
            bind (Utf8.decode t) (fun s' => Return (c :: s')) = Return s ->
            encodable s = true /\ utf8_len s = k + len t).
  { intros t c k Ht Hc Hk H.
    destruct (Utf8.decode t) as [s'|] eqn:E; [|discriminate].
    cbn [bind] in H. apply Return_inj in H. subst s.
    destruct (IH (length t) Ht t eq_refl s' E) as [He Hl].
    split.
    - cbn [encodable forallb]. fold (encodable s'). now rewrite Hc, He.
    - cbn [utf8_len fold_right]. fold (utf8_len s'). lia. }
  destruct b as [|b0 t0].
  { intros H. apply Return_inj in H. subst s. split; reflexivity. }
  cbn [Utf8.decode]. cbv zeta.
  pose proof (Z_of_byte_range b0) as R0.
  set (c0 := Z_of_byte b0) in *.
  unfold Utf8.is_cont, Utf8.cont, Utf8.is_surrogate.
  destruct (Z.ltb_spec c0 0x80) as [H1|H1].
  { intros Hdec. replace (len (b0 :: t0)) with (1 + len t0)
      by (unfold len; cbn [length]; lia).
    apply (Hrec t0 c0 1); [subst n; simpl; lia | apply is_scalar_intro; lia | | exact Hdec].
    unfold utf8_size_char. destruct (Z.ltb_spec c0 0x80); lia. }
  destruct (Z.ltb_spec c0 0xC0) as [H2|H2]; [discriminate|].
  destruct (Z.ltb_spec c0 0xE0) as [H3|H3].
  { destruct t0 as [|b1 t1]; [discriminate|].
    pose proof (Z_of_byte_range b1) as R1. set (c1 := Z_of_byte b1) in *.
    match goal with |- (if ?c then _ else _) = _ -> _ => destruct c eqn:Ec end;
      [|discriminate].
    intros Hdec. bool_facts.
    replace (len (b0 :: b1 :: t1)) with (2 + len t1)
      by (unfold len; cbn [length]; lia).
    apply (Hrec t1 ((c0 - 0xC0) * 64 + (c1 - 0x80)) 2);
      [subst n; simpl; lia | apply is_scalar_intro; lia | | exact Hdec].
    unfold utf8_size_char.
    repeat match goal with
           | |- context [?a <? ?b] => destruct (Z.ltb_spec a b); try lia
           end. }
  destruct (Z.ltb_spec c0 0xF0) as [H4|H4].
  { destruct t0 as [|b1 [|b2 t2]]; try discriminate.
    pose proof (Z_of_byte_range b1) as R1. set (c1 := Z_of_byte b1) in *.
    pose proof (Z_of_byte_range b2) as R2. set (c2 := Z_of_byte b2) in *.
    match goal with |- (if ?c then _ else _) = _ -> _ => destruct c eqn:Ec end;
      [|discriminate].
    intros Hdec. bool_facts.
    replace (len (b0 :: b1 :: b2 :: t2)) with (3 + len t2)
      by (unfold len; cbn [length]; lia).
    apply (Hrec t2 ((c0 - 0xE0) * 4096 + (c1 - 0x80) * 64 + (c2 - 0x80)) 3);
      [subst n; simpl; lia | apply is_scalar_intro; lia | | exact Hdec].
    unfold utf8_size_char.
    repeat match goal with
           | |- context [?a <? ?b] => destruct (Z.ltb_spec a b); try lia
           end. }
  destruct (Z.ltb_spec c0 0xF8) as [H5|H5]; [|discriminate].
  destruct t0 as [|b1 [|b2 [|b3 t3]]]; try discriminate.
  pose proof (Z_of_byte_range b1) as R1. set (c1 := Z_of_byte b1) in *.
  pose proof (Z_of_byte_range b2) as R2. set (c2 := Z_of_byte b2) in *.
  pose proof (Z_of_byte_range b3) as R3. set (c3 := Z_of_byte b3) in *.
  match goal with |- (if ?c then _ else _) = _ -> _ => destruct c eqn:Ec end;
    [|discriminate].
  intros Hdec. bool_facts.
  replace (len (b0 :: b1 :: b2 :: b3 :: t3)) with (4 + len t3)
    by (unfold len; cbn [length]; lia).
  apply (Hrec t3 ((c0 - 0xF0) * 262144 + (c1 - 0x80) * 4096
                  + (c2 - 0x80) * 64 + (c3 - 0x80)) 4);
    [subst n; simpl; lia | apply is_scalar_intro; lia | | exact Hdec].
  unfold utf8_size_char.
  repeat match goal with
         | |- context [?a <? ?b] => destruct (Z.ltb_spec a b); try lia
         end.
Qed.

Lemma unpack_unsigned_Return (size : nat) (b : bytes) (v : Z) :
  Struct.unpack_unsigned size b = Return v ->
  length b = size /\ 0 <= v < 256 ^ Z.of_nat size.
Proof.
  intros H. pose proof (unpack_unsigned_Return_length _ _ _ H) as Hl.
  split; [exact Hl|]. unfold Struct.unpack_unsigned in H.
  rewrite Hl, Nat.eqb_refl in H. apply Return_inj in H. subst v.
  pose proof (from_bytes_be_range b) as Hr. unfold len in Hr. now rewrite Hl in Hr.
Qed.

Lemma unpack_I64_Return (b : bytes) (v : Z) :
  Struct.unpack_I64 b = Return v ->
  length b = 8%nat /\ - 2 ^ 63 <= v < 2 ^ 63.
Proof.
  unfold Struct.unpack_I64. intros H.
  apply bind_Return in H as (u & Hu & H).
  apply unpack_unsigned_Return in Hu as [Hl Hr].
  change (256 ^ Z.of_nat 8) with (2 ^ 64) in Hr.
  apply Return_inj in H. subst v. split; [exact Hl|].
  destruct (Z.ltb_spec u (2 ^ 63)); lia.
Qed.

(** A turn that returns has assigned one field: a valid one, and no
    larger than the bytes of the payload the turn went over. *)
Lemma decode_field_assigns (payload : bytes) (offset : nat) (result : dict)
      (offset' : nat) (result' : dict) :
  (offset < length payload)%nat ->
  decode_field payload offset result = Return (offset', result') ->
  exists key v,
    result' = dict_set result key v /\
    valid_field (key, v) = true /\
    field_size (key, v)
    <= Z.of_nat (Nat.min offset' (length payload)) - Z.of_nat offset.
Proof.
  intros Hlt. unfold decode_field, Struct.unpack.
  destruct (Struct.unpack_unsigned 2 _) as [klen|] eqn:Eu; cbn [bind];
    [|discriminate].
  apply unpack_unsigned_Return in Eu as [Lu Ru]. rewrite slice_length in Lu.
  change (256 ^ Z.of_nat 2) with 65536 in Ru.
  destruct (Utf8.decode _) as [key|] eqn:Ek; cbn [bind]; [|discriminate].
  apply utf8_decode_valid in Ek as [Ke Kl].
  unfold len in Kl. rewrite slice_length in Kl.
  destruct (Struct.unpack_unsigned 1 _) as [tc|] eqn:Et; cbn [bind];
    [|discriminate].
  apply unpack_unsigned_Return in Et as [Lt _]. rewrite slice_length in Lt.
  assert (Hk : valid_key key = true).
  { unfold valid_key. rewrite Ke. cbn [andb]. apply Z.leb_le. lia. }
  destruct (tc =? TYPE_INT64).
  { destruct (Struct.unpack_I64 _) as [v|] eqn:Ev; cbn [bind]; [|discriminate].
    apply unpack_I64_Return in Ev as [Lv Rv]. rewrite slice_length in Lv.
    intros H. apply Return_inj in H. inversion H; subst; clear H.
    exists key, (T_int64 v). split; [reflexivity|]. split.
    - unfold valid_field. cbn [fst snd valid_value]. rewrite Hk. cbn [andb].
      destruct (Z.leb_spec (- 2 ^ 63) v); destruct (Z.ltb_spec v (2 ^ 63));
        try reflexivity; lia.
    - unfold field_size. cbn [fst snd value_size]. lia. }
  destruct (tc =? TYPE_UINT64).
  { destruct (Struct.unpack_unsigned 8 _) as [v|] eqn:Ev; cbn [bind];
      [|discriminate].
    apply unpack_unsigned_Return in Ev as [Lv Rv]. rewrite slice_length in Lv.
    change (256 ^ Z.of_nat 8) with (2 ^ 64) in Rv.
    intros H. apply Return_inj in H. inversion H; subst; clear H.
    exists key, (T_uint64 v). split; [reflexivity|]. split.
    - unfold valid_field. cbn [fst snd valid_value]. rewrite Hk. cbn [andb].
      destruct (Z.leb_spec 0 v); destruct (Z.ltb_spec v (2 ^ 64));
        try reflexivity; lia.
    - unfold field_size. cbn [fst snd value_size]. lia. }
  destruct (tc =? TYPE_FLOAT64).
  { destruct (Struct.unpack_unsigned 8 _) as [v|] eqn:Ev; cbn [bind];
      [|discriminate].
    apply unpack_unsigned_Return in Ev as [Lv Rv]. rewrite slice_length in Lv.
    change (256 ^ Z.of_nat 8) with (2 ^ 64) in Rv.
    intros H. apply Return_inj in H. inversion H; subst; clear H.
    exists key, (T_float64 v). split; [reflexivity|]. split.
    - unfold valid_field. cbn [fst snd valid_value]. rewrite Hk. cbn [andb].
      destruct (Z.leb_spec 0 v); destruct (Z.ltb_spec v (2 ^ 64));
        try reflexivity; lia.
    - unfold field_size. cbn [fst snd value_size]. lia. }
  destruct (tc =? TYPE_STRING).
  { destruct (Struct.unpack_unsigned 4 _) as [n|] eqn:En; cbn [bind];
      [|discriminate].
    apply unpack_unsigned_Return in En as [Ln Rn]. rewrite slice_length in Ln.
    change (256 ^ Z.of_nat 4) with (2 ^ 32) in Rn.
    destruct (Utf8.decode _) as [s|] eqn:Es; cbn [bind]; [|discriminate].
    apply utf8_decode_valid in Es as [Se Sl].
    unfold len in Sl. rewrite slice_length in Sl.
    intros H. apply Return_inj in H. inversion H; subst; clear H.
    exists key, (T_string s). split; [reflexivity|]. split.
    - unfold valid_field. cbn [fst snd valid_value]. rewrite Hk, Se. cbn [andb].
      apply Z.leb_le. lia.
    - unfold field_size. cbn [fst snd value_size]. lia. }
  destruct (tc =? TYPE_BINARY); [|discriminate].
  destruct (Struct.unpack_unsigned 4 _) as [n|] eqn:En; cbn [bind];
    [|discriminate].
  apply unpack_unsigned_Return in En as [Ln Rn]. rewrite slice_length in Ln.
  change (256 ^ Z.of_nat 4) with (2 ^ 32) in Rn.
  intros H. apply Return_inj in H. inversion H; subst; clear H.
  eexists key, (T_binary _). split; [reflexivity|]. split.
  - unfold valid_field. cbn [fst snd valid_value]. rewrite Hk. cbn [andb].
    apply Z.leb_le. unfold len. rewrite slice_length. lia.
  - unfold field_size. cbn [fst snd value_size]. unfold len.
    rewrite slice_length. lia.
Qed.

Lemma dict_set_valid (d : dict) (key : str) (v : tagged) :
  valid_fields d = true -> valid_field (key, v) = true ->
  valid_fields (dict_set d key v) = true.
Proof.
  intros Hd Hf. induction d as [|[k w] d IH]; cbn [dict_set].
  - cbn [valid_fields forallb]. now rewrite Hf.
  - cbn [valid_fields forallb] in Hd. apply andb_prop in Hd as [Hk Hd].
    destruct (str_eqb k key) eqn:E.
    + apply str_eqb_eq in E. subst k.
      cbn [valid_fields forallb]. now rewrite Hf.
    + cbn [valid_fields forallb]. rewrite Hk. cbn [andb]. now apply IH.
Qed.

Lemma dict_set_size (d : dict) (key : str) (v : tagged) :
  payload_size (dict_set d key v) <= payload_size d + field_size (key, v).
Proof.
  induction d as [|[k w] d IH]; cbn [dict_set payload_size fold_right].
  - lia.
  - destruct (str_eqb k key) eqn:E; cbn [payload_size fold_right];
      fold (payload_size d).
    + apply str_eqb_eq in E. subst k.
      pose proof (field_size_min (key, w)). lia.
    + fold (payload_size (dict_set d key v)). lia.
Qed.

Lemma dict_set_keys (d : dict) (key : str) (v : tagged) :
  NoDup (keys d) ->
  NoDup (keys (dict_set d key v)) /\
  forall x, In x (keys (dict_set d key v)) -> In x (keys d) \/ x = key.
Proof.
  induction d as [|[k w] d IH]; cbn [dict_set keys map fst]; intros Hn.
  - split; [repeat constructor; intros [] | intros x [<-|[]]; auto].
  - fold (keys d) in *. inversion Hn as [|? ? Hk Hd]; subst.
    destruct (IH Hd) as [IH1 IH2].
    destruct (str_eqb k key) eqn:E; cbn [keys map fst]; fold (keys d).
    + split; [exact Hn | intros x Hx; left; exact Hx].
    + fold (keys (dict_set d key v)). split.
      * constructor; [|exact IH1]. intros Hin.
        destruct (IH2 k Hin) as [Hin'|Heq]; [contradiction|].
        subst k. rewrite str_eqb_refl in E. discriminate.
      * intros x [<-|Hx]; [left; left; reflexivity|].
        destruct (IH2 x Hx); [left; right; assumption | right; assumption].
Qed.

Lemma NoDup_is_dict (d : dict) : NoDup (keys d) -> is_dict d = true.
Proof.
  induction d as [|[k v] d IH]; cbn [is_dict keys map fst]; [reflexivity|].
  fold (keys d). intros Hn. inversion Hn as [|? ? Hk Hd]; subst.
  rewrite (IH Hd), andb_true_r. apply negb_true_iff.
  destruct (existsb (str_eqb k) (keys d)) eqn:E; [|reflexivity].
  apply existsb_exists in E as (x & Hx & Hxk).
  apply str_eqb_eq in Hxk. subst x. contradiction.
Qed.

(** The loop keeps a dictionary of distinct keys and valid fields, no
    larger in all than the payload gone over. *)
Lemma decode_loop_keeps (payload : bytes) (budget : nat) :
  forall offset result d,
    NoDup (keys result) ->
    valid_fields result = true ->
    payload_size result <= Z.of_nat (Nat.min offset (length payload)) ->
    decode_loop budget payload offset result = Return d ->
    NoDup (keys d) /\ valid_fields d = true /\
    payload_size d <= len payload.
Proof.
  induction budget as [|budget IH]; intros offset result d Hn Hv Hs;
    cbn [decode_loop];
    destruct (Nat.ltb_spec offset (length payload)) as [Hlt|Hge];
    try discriminate;
    try (intros H; apply Return_inj in H; subst d;
         split; [exact Hn|]; split; [exact Hv|]; unfold len; lia).
  destruct (decode_field payload offset result) as [[o' r']|] eqn:Ef;
    cbn [bind]; [|discriminate].
  destruct (decode_field_assigns _ _ _ _ _ Hlt Ef) as (key & v & -> & Hf & Hsz).
  apply IH.
  - apply dict_set_keys, Hn.
  - now apply dict_set_valid.
  - pose proof (dict_set_size result key v). lia.
Qed.

Lemma decode_message_keeps (message_bytes : bytes) (d : dict) :
  decode_message message_bytes = Return d ->
  is_dict d = true /\ valid_fields d = true /\ payload_size d <= 2 ^ 32 - 1.
Proof.
  unfold decode_message.
  destruct (len message_bytes <? 4); [discriminate|].
  unfold Struct.unpack.
  destruct (Struct.unpack_unsigned 4 _) as [total|] eqn:Eu; cbn [bind];
    [|discriminate].
  apply unpack_unsigned_Return in Eu as [_ Ru].
  change (256 ^ Z.of_nat 4) with (2 ^ 32) in Ru.
  destruct (len message_bytes <? 4 + total); [discriminate|].
  intros H. apply decode_loop_keeps in H.
  - destruct H as (Hn & Hv & Hs). split; [now apply NoDup_is_dict|].
    split; [exact Hv|]. unfold len in Hs. rewrite slice_length in Hs. lia.
  - constructor.
  - reflexivity.
  - cbn. lia.
Qed.

(** Whatever [decode_message] returns is a valid message: its keys are
    distinct and of at most 65535 UTF-8 bytes, its integers lie in the
    range of their tag, its strings and binaries have at most 2^32 - 1
    bytes and its encoding fits the 32 bits of the header. *)
Theorem decode_message_returns_valid (message_bytes : bytes) (d : dict) :
  decode_message message_bytes = Return d ->
  is_dict d = true /\ valid_message d = true.
Proof.
  intros H. destruct (decode_message_keeps _ _ H) as (Hd & Hv & Hs).
  split; [exact Hd|]. unfold valid_message, items. rewrite Hv. cbn [andb].
  now apply Z.leb_le.
Qed.

Lemma decode_message_returns_valid_witness :
  is_dict [([97], T_binary [x01; x02; x03])] = true /\
  valid_message [([97], T_binary [x01; x02; x03])] = true.
Proof.
  apply (decode_message_returns_valid
           [x00; x00; x00; x0b;
            x00; x01; x61; x05; x00; x00; x00; x0a; x01; x02; x03]).
  vm_compute. reflexivity.
Defined.

(** A decoded message can be sent on: [encode_message] returns on what
    [decode_message] returned, and the new frame decodes to the same
    message. *)
Theorem decode_encode_decode (message_bytes : bytes) (d : dict) :
  decode_message message_bytes = Return d ->
  exists f, encode_message d = Return f /\ decode_message f = Return d.
Proof.
  intros H. destruct (decode_message_keeps _ _ H) as (Hd & Hv & Hs).
  destruct (encode_decode_frame d Hv Hs) as (f & He & _ & Hdec).
  exists f. split; [exact He|].
  rewrite <- (app_nil_r f), Hdec.
  rewrite (assign_all_nodup d []) by (simpl; now apply is_dict_NoDup).
  reflexivity.
Qed.

Lemma decode_encode_decode_witness :
  exists f,
    encode_message [([107], T_binary [x2a]); ([120], T_string [97])] = Return f /\
    decode_message f = Return [([107], T_binary [x2a]); ([120], T_string [97])].
Proof.
  (* key "k" twice, then a frame end and two stray bytes *)
  apply (decode_encode_decode
           [x00; x00; x00; x1e;
            x00; x01; x6b; x01; x00; x00; x00; x00; x00; x00; x00; x01;
            x00; x01; x78; x04; x00; x00; x00; x01; x61;
            x00; x01; x6b; x05; x00; x00; x00; x01; x2a;
            xff; xff]).
  vm_compute. reflexivity.
Defined.

(* ================================================================== *)
(** * When the decoder raises *)

Lemma decode_message_raises_cases (message_bytes : bytes) (e : error) :
  decode_message message_bytes = Raise e ->
  (e = ValueError_too_short /\ len message_bytes < 4) \/
  (e = ValueError_incomplete /\ 4 <= len message_bytes
   /\ len message_bytes < 4 + from_bytes_be (firstn 4 message_bytes)) \/
  ((e = struct_error \/ e = UnicodeDecodeError \/ e = ValueError_unknown_type_code)
   /\ 4 <= len message_bytes
   /\ 4 + from_bytes_be (firstn 4 message_bytes) <= len message_bytes).
Proof.
  unfold decode_message.
  destruct (Z.ltb_spec (len message_bytes) 4) as [Hs|Hs].
  { intros H; inversion H; subst. left. auto. }
  unfold Struct.unpack, Struct.unpack_unsigned.
  assert (H4 : length (slice message_bytes 0 4) = 4%nat)
    by (rewrite slice_length; unfold len in Hs; lia).
  rewrite H4. cbn [Nat.eqb bind].
  change (slice message_bytes 0 4) with (firstn 4 message_bytes).
  destruct (Z.ltb_spec (len message_bytes)
                       (4 + from_bytes_be (firstn 4 message_bytes))) as [Hi|Hi].
  { intros H; inversion H; subst. right. left. auto. }
  intros H. apply decode_loop_raises in H; [|lia]. right. right. auto.
Qed.

(** The exceptions of [decode_message]: its three [ValueError]s,
    [struct.error] and [UnicodeDecodeError]; no other. *)
Theorem decode_message_raises (message_bytes : bytes) (e : error) :
  decode_message message_bytes = Raise e ->
  e = ValueError_too_short \/ e = ValueError_incomplete \/
  e = ValueError_unknown_type_code \/ e = struct_error \/
  e = UnicodeDecodeError.
Proof.
  intros H. apply decode_message_raises_cases in H.
  destruct H as [[-> _]|[[-> _]|[[->|[->| ->]] _]]]; auto.
Qed.

Lemma decode_message_raises_witness :
  UnicodeDecodeError = ValueError_too_short \/
  UnicodeDecodeError = ValueError_incomplete \/
  UnicodeDecodeError = ValueError_unknown_type_code \/
  UnicodeDecodeError = struct_error \/
  UnicodeDecodeError = UnicodeDecodeError.
Proof.
  (* key "\xff" *)
  apply (decode_message_raises [x00; x00; x00; x03; x00; x01; xff]).
  vm_compute. reflexivity.
Defined.

(** The two length errors are raised on the length alone: "too short"
    exactly by the buffers of fewer than 4 bytes, "incomplete" exactly
    by the buffers of 4 bytes or more that hold fewer bytes after the
    header than it declares.  The content of the payload raises neither. *)
Theorem decode_message_length_errors (message_bytes : bytes) :
  (decode_message message_bytes = Raise ValueError_too_short
   <-> len message_bytes < 4) /\
  (decode_message message_bytes = Raise ValueError_incomplete
   <-> 4 <= len message_bytes
       /\ len message_bytes < 4 + from_bytes_be (firstn 4 message_bytes)).
Proof.
  split; split.
  - intros H. apply decode_message_raises_cases in H.
    destruct H as [[_ H]|[[H _]|[[H|[H|H]] _]]]; try discriminate. exact H.
  - intros H. unfold decode_message.
    destruct (Z.ltb_spec (len message_bytes) 4); [reflexivity | lia].
  - intros H. apply decode_message_raises_cases in H.
    destruct H as [[H _]|[[_ H]|[[H|[H|H]] _]]]; try discriminate. exact H.
  - intros [Hs Hi]. unfold decode_message.
    destruct (Z.ltb_spec (len message_bytes) 4); [lia|].
    unfold Struct.unpack, Struct.unpack_unsigned.
    assert (H4 : length (slice message_bytes 0 4) = 4%nat)
      by (rewrite slice_length; unfold len in Hs; lia).
    rewrite H4. cbn [Nat.eqb bind].
    change (slice message_bytes 0 4) with (firstn 4 message_bytes).
    destruct (Z.ltb_spec (len message_bytes)
                         (4 + from_bytes_be (firstn 4 message_bytes)));
      [reflexivity | lia].
Qed.

(** A binary field whose declared length reaches the end of the
    payload, or passes it, ends the parse: [decode_message] returns, and
    the value of the field is the bytes that are left, however many
    were declared. *)
Theorem decode_last_binary_takes_rest (message_bytes payload : bytes)
        (offset : nat) (result : dict) (key_length : Z) (key : str)
        (bin_length : Z) :
  let at_type := (offset + 2 + Z.to_nat key_length)%nat in
  covers message_bytes payload ->
  reaches payload offset result ->
  Struct.unpack FMT_U16 (slice payload offset (offset + 2)) = Return key_length ->
  Utf8.decode (slice payload (offset + 2) at_type) = Return key ->
  Struct.unpack FMT_U8 (slice payload at_type (at_type + 1)) = Return TYPE_BINARY ->
  Struct.unpack FMT_U32 (slice payload (at_type + 1) (at_type + 1 + 4))
  = Return bin_length ->
  (length payload <= at_type + 1 + 4 + Z.to_nat bin_length)%nat ->
  decode_message message_bytes
  = Return (dict_set result key (T_binary (skipn (at_type + 1 + 4) payload))).
Proof.
  intros at_type Hc Hr Hu Hd Ht Hn Hend.
  pose proof (unpack_unsigned_Return_length _ _ _ Hu) as Hl.
  rewrite slice_length in Hl.
  assert (Hf : decode_field payload offset result
               = Return ((at_type + 1 + 4 + Z.to_nat bin_length)%nat,
                         dict_set result key
                           (T_binary (skipn (at_type + 1 + 4) payload)))).
  { unfold decode_field. rewrite Hu. cbn [bind]. fold at_type.
    rewrite Hd. cbn [bind]. rewrite Ht. cbn [bind].
    change (TYPE_BINARY =? TYPE_INT64) with false.
    change (TYPE_BINARY =? TYPE_UINT64) with false.
    change (TYPE_BINARY =? TYPE_FLOAT64) with false.
    change (TYPE_BINARY =? TYPE_STRING) with false.
    change (TYPE_BINARY =? TYPE_BINARY) with true. cbv iota.
    rewrite Hn. cbn [bind]. do 4 f_equal.
    unfold slice. apply firstn_all2. rewrite length_skipn. lia. }
  rewrite (decode_message_covers _ _ Hc).
  assert (Hr' : reaches payload (at_type + 1 + 4 + Z.to_nat bin_length)
                  (dict_set result key (T_binary (skipn (at_type + 1 + 4) payload))))
    by (eapply reaches_turn; [exact Hr | lia | exact Hf]).
  rewrite (decode_loop_from _ _ _ Hr' 0) by lia.
  cbn [decode_loop]. destruct (Nat.ltb_spec
    (at_type + 1 + 4 + Z.to_nat bin_length) (length payload)); [lia | reflexivity].
Qed.

Lemma decode_last_binary_takes_rest_witness :
  (* "a" = int64 30, then "b" = binary declaring 10 bytes with 3 left *)
  decode_message [x00; x00; x00; x17;
                  x00; x01; x61; x01; x00; x00; x00; x00; x00; x00; x00; x1e;
                  x00; x01; x62; x05; x00; x00; x00; x0a; x01; x02; x03]
  = Return (dict_set [([97], T_int64 30)] [98]
              (T_binary
                 (skipn (12 + 2 + Z.to_nat 1 + 1 + 4)
                    [x00; x01; x61; x01; x00; x00; x00; x00; x00; x00; x00; x1e;
                     x00; x01; x62; x05; x00; x00; x00; x0a; x01; x02; x03]))).
Proof.
  apply (decode_last_binary_takes_rest
           [x00; x00; x00; x17;
            x00; x01; x61; x01; x00; x00; x00; x00; x00; x00; x00; x1e;
            x00; x01; x62; x05; x00; x00; x00; x0a; x01; x02; x03]
           [x00; x01; x61; x01; x00; x00; x00; x00; x00; x00; x00; x1e;
            x00; x01; x62; x05; x00; x00; x00; x0a; x01; x02; x03]
           12 [([97], T_int64 30)] 1 [98] 10).
  - exists 23. repeat split; vm_compute; try reflexivity; discriminate.
  - apply (reaches_turn _ 0%nat [] 12%nat [([97], T_int64 30)]).
    + apply reaches_start.
    + simpl. lia.
    + vm_compute. reflexivity.
  - vm_compute. reflexivity.
  - vm_compute. reflexivity.
  - vm_compute. reflexivity.
  - vm_compute. reflexivity.
  - simpl. lia.
Defined.

(* ================================================================== *)
(** * Frames on a connection *)

(** [recvall] loses nothing: when the socket has the [n] bytes, those
    returned and those still to come are, in this order, the bytes the
    socket had. *)
Theorem recvall_loses_no_bytes (sock : socket) (n : nat) :
  (n <= length (available sock))%nat ->
  fst (recvall sock n) ++ available (snd (recvall sock n)) = available sock.
Proof.
  intros H. rewrite recvall_data, recvall_rest by exact H.
  apply firstn_skipn.
Qed.

Lemma recvall_loses_no_bytes_witness :
  fst (recvall [[x01; x02]; [x03]; [x04; x05; x06]; []; [x07]] 4)
  ++ available (snd (recvall [[x01; x02]; [x03]; [x04; x05; x06]; []; [x07]] 4))
  = available [[x01; x02]; [x03]; [x04; x05; x06]; []; [x07]].
Proof.
  apply (recvall_loses_no_bytes [[x01; x02]; [x03]; [x04; x05; x06]; []; [x07]] 4).
  simpl. lia.
Defined.

(** With a whole frame to come, [recv_message] decodes it and leaves
    the socket at the byte after it. *)
Lemma recv_message_frame (sock : socket) :
  let a := available sock in
  let total_length := from_bytes_be (firstn 4 a) in
  4 + total_length <= len a ->
  fst (recv_message sock) = decode_message (firstn (4 + Z.to_nat total_length) a) /\
  available (snd (recv_message sock)) = skipn (4 + Z.to_nat total_length) a.
Proof.
  intros a total_length Hall. unfold recv_message.
  pose proof (from_bytes_be_range (firstn 4 a)) as Hrange.
  fold total_length in Hrange.
  pose proof (recvall_data sock 4) as Hh.
  pose proof (recvall_rest sock 4) as Hr.
  destruct (recvall sock 4) as [header sock1]. cbn [fst snd] in *.
  fold a in Hh, Hr. unfold len in *.
  assert (Hlen : length header = 4%nat)
    by (rewrite Hh, length_firstn; lia).
  destruct (Z.ltb_spec (Z.of_nat (length header)) 4) as [Hs|Hs]; [lia|].
  unfold Struct.unpack, Struct.unpack_unsigned.
  rewrite Hlen. cbn [Nat.eqb]. rewrite Hh. fold total_length.
  assert (Hr1 : available sock1 = skipn 4 a) by (apply Hr; lia).
  pose proof (recvall_data sock1 (Z.to_nat total_length)) as Hp.
  pose proof (recvall_rest sock1 (Z.to_nat total_length)) as Hr2.
  destruct (recvall sock1 (Z.to_nat total_length)) as [payload sock2].
  cbn [fst snd] in *. rewrite Hr1 in Hp, Hr2.
  rewrite length_skipn in Hr2.
  assert (Hpl : length payload = Z.to_nat total_length)
    by (rewrite Hp, length_firstn, length_skipn; lia).
  destruct (Z.ltb_spec (Z.of_nat (length payload)) total_length); [lia|].
  cbn [fst snd]. split.
  - rewrite Hp, firstn_plus. reflexivity.
  - rewrite Hr2 by lia. rewrite skipn_skipn. f_equal. lia.
Qed.

(** [recv_message] takes one frame off the socket and no more: when the
    bytes to come hold a whole frame, those left after the call are the
    ones after that frame, so that the next call starts at the next
    frame. *)
Theorem recv_message_takes_one_frame (sock : socket) :
  let a := available sock in
  let total_length := from_bytes_be (firstn 4 a) in
  4 + total_length <= len a ->
  available (snd (recv_message sock)) = skipn (4 + Z.to_nat total_length) a.
Proof.
  intros a total_length H. apply (proj2 (recv_message_frame sock H)).
Qed.

Lemma recv_message_takes_one_frame_witness :
  let sock := [[x00]; [x00; x00; x01; xff; x00]; [x00; x00]; [x00]] in
  available (snd (recv_message sock))
  = skipn (4 + Z.to_nat (from_bytes_be (firstn 4 (available sock))))
      (available sock).
Proof.
  intros sock. apply (recv_message_takes_one_frame sock).
  vm_compute. discriminate.
Defined.

Lemma firstn_exact {A : Type} (a b : list A) (n : nat) :
  n = length a -> firstn n (a ++ b) = a.
Proof.
  intros ->. rewrite firstn_app, firstn_all, Nat.sub_diag, firstn_O.
  apply app_nil_r.
Qed.

Lemma skipn_exact {A : Type} (a b : list A) (n : nat) :
  n = length a -> skipn n (a ++ b) = b.
Proof.
  intros ->. rewrite skipn_app, skipn_all, Nat.sub_diag. reflexivity.
Qed.

(** Receiving where an encoded frame comes first. *)
Lemma recv_encoded (m d : dict) (f : bytes) (rsock : socket) (rest : bytes) :
  encode_message m = Return f ->
  decode_message f = Return d ->
  available rsock = f ++ rest ->
  fst (recv_message rsock) = Return d /\
  available (snd (recv_message rsock)) = rest.
Proof.
  intros He Hd Ha.
  apply encode_message_inv in He as (payload & Hf & Hl).
  pose proof (len_nonneg payload) as H0.
  pose proof (to_bytes_be_length 4 (len payload)) as H4.
  assert (Hhead : firstn 4 (available rsock) = to_bytes_be 4 (len payload)).
  { rewrite Ha, Hf, <- app_assoc. apply firstn_exact. now rewrite H4. }
  assert (HL : from_bytes_be (firstn 4 (available rsock)) = len payload).
  { rewrite Hhead. apply from_to_bytes_be.
    change (256 ^ Z.of_nat 4) with (2 ^ 32). lia. }
  assert (Hlf : length f = (4 + Z.to_nat (len payload))%nat).
  { rewrite Hf, length_app, H4. unfold len. lia. }
  destruct (recv_message_frame rsock) as [H1 H2].
  { rewrite HL, Ha, len_app. pose proof (len_nonneg rest).
    unfold len in *. lia. }
  rewrite HL in H1, H2. rewrite Ha in H1, H2. split.
  - rewrite H1, firstn_exact by (symmetry; exact Hlf). exact Hd.
  - rewrite H2. apply skipn_exact. symmetry. exact Hlf.
Qed.

Lemma valid_message_roundtrip (m : dict) :
  is_dict m = true ->
  valid_message m = true ->
  exists f, encode_message m = Return f /\ decode_message f = Return m.
Proof.
  unfold valid_message, items. intros Hd H.
  apply andb_prop in H as [Hv Hs]. apply Z.leb_le in Hs.
  destruct (encode_decode_frame m Hv Hs) as (f & He & _ & Hdec).
  exists f. split; [exact He|].
  rewrite <- (app_nil_r f), Hdec.
  rewrite (assign_all_nodup m []) by (simpl; now apply is_dict_NoDup).
  reflexivity.
Qed.

(** What [send_message] writes, [recv_message] reads back.  For a valid
    message, [send_message] returns having written one frame after the
    bytes already sent; and on any socket that has this frame to come
    first, cut into chunks in any way and followed by anything,
    [recv_message] returns the message and leaves what follows. *)
Theorem send_then_recv (m : dict) :
  is_dict m = true ->
  valid_message m = true ->
  exists f,
    (forall sent, send_message sent m = (Return tt, sent ++ f)) /\
    forall rsock rest,
      available rsock = f ++ rest ->
      fst (recv_message rsock) = Return m /\
      available (snd (recv_message rsock)) = rest.
Proof.
  intros Hd Hv.
  destruct (valid_message_roundtrip m Hd Hv) as (f & He & Hdec).
  exists f. split.
  - intros sent. unfold send_message, sendall. now rewrite He.
  - intros rsock rest Ha. exact (recv_encoded m m f rsock rest He Hdec Ha).
Qed.

Lemma send_then_recv_witness :
  exists f,
    (forall sent,
       send_message sent [([97; 103; 101], T_int64 30)] = (Return tt, sent ++ f)) /\
    forall rsock rest,
      available rsock = f ++ rest ->
      fst (recv_message rsock) = Return [([97; 103; 101], T_int64 30)] /\
      available (snd (recv_message rsock)) = rest.
Proof.
  apply (send_then_recv [([97; 103; 101], T_int64 30)]);
    vm_compute; reflexivity.
Defined.

(** Two messages sent one after the other are received one after the
    other, whatever the chunks the bytes arrive in: the frames do not
    run into each other. *)
Theorem send_twice_recv_twice (m1 m2 : dict) (sent : bytes) (rsock : socket) :
  is_dict m1 = true -> valid_message m1 = true ->
  is_dict m2 = true -> valid_message m2 = true ->
  available rsock
  = skipn (length sent) (snd (send_message (snd (send_message sent m1)) m2)) ->
  fst (recv_message rsock) = Return m1 /\
  fst (recv_message (snd (recv_message rsock))) = Return m2 /\
  available (snd (recv_message (snd (recv_message rsock)))) = [].
Proof.
  intros Hd1 Hv1 Hd2 Hv2 Ha.
  destruct (valid_message_roundtrip m1 Hd1 Hv1) as (f1 & He1 & Hdec1).
  destruct (valid_message_roundtrip m2 Hd2 Hv2) as (f2 & He2 & Hdec2).
  unfold send_message, sendall in Ha. rewrite He1 in Ha. cbn [snd] in Ha.
  rewrite He2 in Ha. cbn [snd] in Ha.
  rewrite <- app_assoc, skipn_exact in Ha by reflexivity.
  destruct (recv_encoded m1 m1 f1 rsock f2 He1 Hdec1 Ha) as [R1 A1].
  split; [exact R1|].
  rewrite <- (app_nil_r f2) in A1.
  exact (recv_encoded m2 m2 f2 _ [] He2 Hdec2 A1).
Qed.

Lemma send_twice_recv_twice_witness :
  let m1 := [([97; 103; 101], T_int64 30)] in
  let m2 := [([110], T_string [65; 0xE9])] in
  let rsock := [[x00]; [x00; x00; x0e; x00; x03; x61; x67; x65; x01; x00; x00];
                [x00; x00; x00; x00; x00; x1e; x00; x00];
                [x00; x0b; x00; x01; x6e; x04; x00; x00; x00; x03; x41; xc3; xa9]] in
  fst (recv_message rsock) = Return m1 /\
  fst (recv_message (snd (recv_message rsock))) = Return m2 /\
  available (snd (recv_message (snd (recv_message rsock)))) = [].
Proof.
  intros m1 m2 rsock.
  apply (send_twice_recv_twice m1 m2 [xaa; xbb] rsock);
    vm_compute; reflexivity.
Defined.



(* ================================================================== *)
(** * The usage example *)

Lemma outer_message_valid (inner_bytes : bytes) :
  len inner_bytes <= 2 ^ 32 - 15 ->
  is_dict [(payload_key, T_binary inner_bytes)] = true /\
  valid_message [(payload_key, T_binary inner_bytes)] = true.
Proof.
  intros H. split; [reflexivity|].
  unfold valid_message, items, valid_fields, valid_field.
  cbn [forallb fst snd valid_value payload_size fold_right].
  unfold field_size. cbn [fst snd value_size].
  change (valid_key payload_key) with true.
  change (utf8_len payload_key) with 7.
  cbn [andb]. rewrite andb_true_r.
  apply andb_true_intro. split; apply Z.leb_le; lia.
Qed.

(** A message nested by [client] comes out of [server]: for every valid
    inner message of at most 2^32 - 19 payload bytes, the client's
    request is written, the server, on any socket that delivers it,
    finds the key "payload", decodes the inner message back and
    answers, and the client, on any socket that delivers the answer,
    receives [{"status": ("string", "OK")}]. *)
Theorem nested_message_exchange (cli conn : endpoint) (inner : dict) :
  is_dict inner = true ->
  valid_fields inner = true ->
  payload_size inner <= 2 ^ 32 - 19 ->
  available (incoming conn)
  = skipn (length (outgoing cli)) (outgoing (snd (client_request cli inner))) ->
  fst (client_request cli inner) = Return tt /\
  fst (server conn) = Return (Some inner) /\
  forall cli',
    available (incoming cli')
    = skipn (length (outgoing conn)) (outgoing (snd (server conn))) ->
    fst (client_response cli') = Return response.
Proof.
  intros Hd Hv Hs.
  destruct (encode_decode_frame inner Hv ltac:(lia)) as (fi & Hei & Hli & Hdi).
  specialize (Hdi []). rewrite app_nil_r in Hdi.
  rewrite (assign_all_nodup inner []) in Hdi by (simpl; now apply is_dict_NoDup).
  cbn [app] in Hdi.
  destruct (outer_message_valid fi ltac:(lia)) as [Hod Hov].
  destruct (valid_message_roundtrip _ Hod Hov) as (fo & Heo & Hdo).
  unfold client_request. rewrite Hei. unfold send_message, sendall.
  rewrite Heo. cbn [fst snd outgoing].
  rewrite skipn_exact by reflexivity. intros Ha.
  split; [reflexivity|].
  rewrite <- (app_nil_r fo) in Ha.
  destruct (recv_encoded _ _ fo (incoming conn) [] Heo Hdo Ha) as [R1 _].
  assert (Her : encode_message response
                = Return [x00; x00; x00; x0f; x00; x06; x73; x74; x61; x74;
                          x75; x73; x04; x00; x00; x00; x02; x4f; x4b])
    by (vm_compute; reflexivity).
  assert (Hdr : decode_message [x00; x00; x00; x0f; x00; x06; x73; x74; x61; x74;
                                x75; x73; x04; x00; x00; x00; x02; x4f; x4b]
                = Return response)
    by (vm_compute; reflexivity).
  unfold server. destruct (recv_message (incoming conn)) as [r inc].
  cbn [fst] in R1. subst r.
  cbn [dict_get]. change (str_eqb payload_key payload_key) with true. cbv iota.
  rewrite Hdi. cbn [bind]. unfold send_message, sendall. rewrite Her.
  cbn [fst snd outgoing]. split; [reflexivity|].
  intros cli'. rewrite skipn_exact by reflexivity. intros Ha'.
  rewrite <- app_nil_r in Ha'.
  unfold client_response.
  destruct (recv_encoded _ _ _ (incoming cli') [] Her Hdr Ha') as [R2 _].
  destruct (recv_message (incoming cli')) as [resp inc']. exact R2.
Qed.

(** The exchange of the source, with its [inner_message]. *)
Lemma nested_message_exchange_witness :
  let cli := {| incoming := []; outgoing := [] |} in
  let conn :=
    {| incoming :=
         [[x00; x00; x00; x39; x00; x07]; [x70; x61; x79; x6c; x6f; x61; x64; x05];
          [x00; x00; x00; x2b;
           x00; x00; x00; x27;
           x00; x03; x75; x69; x64; x02; x00; x00; x00; x02; x4c; xb0; x16; xea];
          [x00; x04; x6e; x6f; x74; x65; x04; x00; x00; x00; x0e;
           x6e; x65; x73; x74; x65; x64; x20; x70; x61; x79; x6c; x6f; x61; x64]];
       outgoing := [] |} in
  fst (client_request cli inner_message) = Return tt /\
  fst (server conn) = Return (Some inner_message) /\
  forall cli',
    available (incoming cli')
    = skipn (length (outgoing conn)) (outgoing (snd (server conn))) ->
    fst (client_response cli') = Return response.
Proof.
  intros cli conn.
  apply (nested_message_exchange cli conn inner_message);
    vm_compute; try reflexivity; discriminate.
Defined.

(* ================================================================== *)
(** * Frames and what surrounds them *)

(** [decode_message] reads its frame and nothing else: once the buffer
    holds the four bytes of the length and the bytes they declare,
    whatever is appended changes neither the mapping returned nor the
    exception raised. *)
Theorem decode_message_frame_only (message_bytes : bytes) :
  4 <= len message_bytes ->
  4 + from_bytes_be (firstn 4 message_bytes) <= len message_bytes ->
  forall s, decode_message (message_bytes ++ s) = decode_message message_bytes.
Proof.
  intros H4 Hc s.
  pose proof (from_bytes_be_range (firstn 4 message_bytes)) as Hr.
  assert (Hcov : forall b,
             firstn (4 + Z.to_nat (from_bytes_be (firstn 4 message_bytes))) b
             = firstn (4 + Z.to_nat (from_bytes_be (firstn 4 message_bytes)))
                 message_bytes ->
             covers b (slice message_bytes 4
                         (4 + Z.to_nat (from_bytes_be (firstn 4 message_bytes))))).
  { intros b Hb.
    assert (Hlb : (4 + Z.to_nat (from_bytes_be (firstn 4 message_bytes))
                   <= length b)%nat).
    { apply (f_equal (@length byte)) in Hb. rewrite !length_firstn in Hb.
      unfold len in *. lia. }
    assert (Hb4 : firstn 4 b = firstn 4 message_bytes).
    { apply (f_equal (firstn 4)) in Hb.
      rewrite !firstn_firstn in Hb.
      now replace (Nat.min 4 (4 + Z.to_nat (from_bytes_be (firstn 4 message_bytes))))
        with 4%nat in Hb by lia. }
    exists (from_bytes_be (firstn 4 message_bytes)).
    split; [unfold len; lia|]. split; [|split; [unfold len; lia|]].
    - unfold Struct.unpack, Struct.unpack_unsigned.
      change (slice b 0 4) with (firstn 4 b).
      rewrite length_firstn. replace (Nat.min 4 (length b)) with 4%nat by lia.
      cbn [Nat.eqb]. now rewrite Hb4.
    - unfold slice.
      replace (4 + Z.to_nat (from_bytes_be (firstn 4 message_bytes)) - 4)%nat
        with (Z.to_nat (from_bytes_be (firstn 4 message_bytes))) by lia.
      rewrite !firstn_skipn_comm. now rewrite Hb. }
  rewrite (decode_message_covers _ _ (Hcov message_bytes eq_refl)).
  apply decode_message_covers, Hcov.
  rewrite firstn_app.
  replace (4 + Z.to_nat (from_bytes_be (firstn 4 message_bytes))
           - length message_bytes)%nat with 0%nat by (unfold len in *; lia).
  now rewrite firstn_O, app_nil_r.
Qed.

Lemma decode_message_frame_only_witness :
  (* a frame that raises: key of two bytes, then no type code *)
  decode_message ([x00; x00; x00; x04; x00; x02; xc3; xa9; x07] ++ [x01; x02])
  = decode_message [x00; x00; x00; x04; x00; x02; xc3; xa9; x07].
Proof.
  apply (decode_message_frame_only
           [x00; x00; x00; x04; x00; x02; xc3; xa9; x07]);
    vm_compute; discriminate.
Defined.

Lemma encode_value_parts (parts : list bytes) (tv : tagged) :
  encode_value parts tv
  = (ps <- encode_value [] tv ;; Return (parts ++ ps)).
Proof.
  destruct tv; cbn [encode_value];
    repeat match goal with
           | |- context [bind ?r _] =>
               match r with
               | Struct.pack _ _ => destruct r; cbn [bind]
               | Utf8.encode _ => destruct r; cbn [bind]
               end
           end; reflexivity.
Qed.

(** The fields are encoded one by one, whatever was encoded before. *)
Lemma encode_fields_parts (its : list (str * tagged)) :
  forall parts,
    encode_fields its parts
    = (ps <- encode_fields its [] ;; Return (parts ++ ps)).
Proof.
  induction its as [|[key tv] its IH]; intros parts; cbn [encode_fields bind].
  - now rewrite app_nil_r.
  - destruct (Utf8.encode key) as [kb|]; cbn [bind]; [|reflexivity].
    destruct (Struct.pack FMT_U16 (len kb)) as [kl|]; cbn [bind]; [|reflexivity].
    rewrite (encode_value_parts (parts ++ [kl; kb])).
    rewrite (encode_value_parts ([] ++ [kl; kb])).
    destruct (encode_value [] tv) as [pv|]; cbn [bind]; [|reflexivity].
    rewrite (IH ((parts ++ [kl; kb]) ++ pv)), (IH (([] ++ [kl; kb]) ++ pv)).
    destruct (encode_fields its []) as [ps|]; cbn [bind]; [|reflexivity].
    cbn [app]. now rewrite <- !app_assoc.
Qed.

Lemma encode_message_payload (m : dict) (f : bytes) :
  encode_message m = Return f ->
  exists parts,
    encode_fields m [] = Return parts /\
    skipn 4 f = concat parts /\ len f = 4 + len (concat parts).
Proof.
  unfold encode_message, items. intros H.
  apply bind_Return in H as (parts & Hp & H).
  apply bind_Return in H as (header & Hh & H).
  apply Return_inj in H. subst f.
  pose proof (pack_unsigned_length _ _ _ Hh) as H4.
  exists parts. split; [exact Hp|]. split.
  - apply skipn_exact. now rewrite H4.
  - rewrite len_app. unfold len. rewrite H4. lia.
Qed.

(** The payload of a message in two parts is the payload of the first
    part followed by the payload of the second: the fields are
    serialised in the order of iteration, each on its own.  The frame
    is the two payloads under the header of their joint length. *)
Theorem encode_message_app (m1 m2 : dict) (f1 f2 : bytes) :
  encode_message m1 = Return f1 ->
  encode_message m2 = Return f2 ->
  len f1 + len f2 - 8 <= 2 ^ 32 - 1 ->
  encode_message (m1 ++ m2)
  = Return (to_bytes_be 4 (len f1 + len f2 - 8) ++ skipn 4 f1 ++ skipn 4 f2).
Proof.
  intros H1 H2 Hs.
  apply encode_message_payload in H1 as (p1 & Hp1 & Hk1 & Hl1).
  apply encode_message_payload in H2 as (p2 & Hp2 & Hk2 & Hl2).
  unfold encode_message, items.
  rewrite encode_fields_app, Hp1. cbn [bind].
  rewrite encode_fields_parts, Hp2. cbn [bind].
  rewrite concat_app, Hk1, Hk2.
  replace (len f1 + len f2 - 8) with (len (concat p1 ++ concat p2))
    by (rewrite len_app; lia).
  unfold Struct.pack. rewrite pack_unsigned_ok; [reflexivity|].
  pose proof (len_nonneg (concat p1 ++ concat p2)).
  change (256 ^ Z.of_nat 4) with (2 ^ 32). rewrite len_app in *. lia.
Qed.

Lemma encode_message_app_witness :
  encode_message ([([97], T_int64 1)] ++ [([98], T_string [99])])
  = Return (to_bytes_be 4
              (len [x00; x00; x00; x0c;
                    x00; x01; x61; x01; x00; x00; x00; x00; x00; x00; x00; x01]
               + len [x00; x00; x00; x09;
                      x00; x01; x62; x04; x00; x00; x00; x01; x63] - 8)
            ++ skipn 4 [x00; x00; x00; x0c;
                        x00; x01; x61; x01; x00; x00; x00; x00; x00; x00; x00; x01]
            ++ skipn 4 [x00; x00; x00; x09;
                        x00; x01; x62; x04; x00; x00; x00; x01; x63]).
Proof.
  apply (encode_message_app [([97], T_int64 1)] [([98], T_string [99])]);
    vm_compute; try reflexivity; discriminate.
Defined.

(* ================================================================== *)
(** * Bytes that are not UTF-8 *)

(** A field whose key bytes are not valid UTF-8 makes [decode_message]
    raise [UnicodeDecodeError]: the fields decoded before it are not
    returned. *)
Theorem decode_invalid_key_raises (message_bytes payload : bytes)
        (offset : nat) (result : dict) (key_length : Z) (e : error) :
  covers message_bytes payload ->
  reaches payload offset result ->
  Struct.unpack FMT_U16 (slice payload offset (offset + 2)) = Return key_length ->
  Utf8.decode (slice payload (offset + 2) (offset + 2 + Z.to_nat key_length))
  = Raise e ->
  decode_message message_bytes = Raise UnicodeDecodeError.
Proof.
  intros Hc Hr Hu Hd.
  pose proof (unpack_unsigned_Return_length _ _ _ Hu) as Hl.
  rewrite slice_length in Hl.
  pose proof (utf8_decode_raises _ _ Hd). subst e.
  eapply decode_message_turn_raises; [exact Hc | exact Hr | lia |].
  unfold decode_field. rewrite Hu. cbn [bind]. now rewrite Hd.
Qed.

Lemma decode_invalid_key_raises_witness :
  (* "a" = int64 30, then a key of the two bytes C3 28 *)
  decode_message [x00; x00; x00; x19;
                  x00; x01; x61; x01; x00; x00; x00; x00; x00; x00; x00; x1e;
                  x00; x02; xc3; x28; x01; x00; x00; x00; x00; x00; x00; x00; x01]
  = Raise UnicodeDecodeError.
Proof.
  apply (decode_invalid_key_raises
           [x00; x00; x00; x19;
            x00; x01; x61; x01; x00; x00; x00; x00; x00; x00; x00; x1e;
            x00; x02; xc3; x28; x01; x00; x00; x00; x00; x00; x00; x00; x01]
           [x00; x01; x61; x01; x00; x00; x00; x00; x00; x00; x00; x1e;
            x00; x02; xc3; x28; x01; x00; x00; x00; x00; x00; x00; x00; x01]
           12 [([97], T_int64 30)] 2 UnicodeDecodeError).
  - exists 25. repeat split; vm_compute; try reflexivity; discriminate.
  - apply (reaches_turn _ 0%nat [] 12%nat [([97], T_int64 30)]).
    + apply reaches_start.
    + simpl. lia.
    + vm_compute. reflexivity.
  - vm_compute. reflexivity.
  - vm_compute. reflexivity.
Defined.

(** A string field whose data bytes are not valid UTF-8 makes
    [decode_message] raise [UnicodeDecodeError]. *)
Theorem decode_invalid_string_raises (message_bytes payload : bytes)
        (offset : nat) (result : dict) (key_length : Z) (key : str)
        (str_length : Z) (e : error) :
  let at_type := (offset + 2 + Z.to_nat key_length)%nat in
  covers message_bytes payload ->
  reaches payload offset result ->
  Struct.unpack FMT_U16 (slice payload offset (offset + 2)) = Return key_length ->
  Utf8.decode (slice payload (offset + 2) at_type) = Return key ->
  Struct.unpack FMT_U8 (slice payload at_type (at_type + 1)) = Return TYPE_STRING ->
  Struct.unpack FMT_U32 (slice payload (at_type + 1) (at_type + 1 + 4))
  = Return str_length ->
  Utf8.decode (slice payload (at_type + 1 + 4)
                 (at_type + 1 + 4 + Z.to_nat str_length)) = Raise e ->
  decode_message message_bytes = Raise UnicodeDecodeError.
Proof.
  intros at_type Hc Hr Hu Hd Ht Hn Hs.
  pose proof (unpack_unsigned_Return_length _ _ _ Hu) as Hl.
  rewrite slice_length in Hl.
  pose proof (utf8_decode_raises _ _ Hs). subst e.
  eapply decode_message_turn_raises; [exact Hc | exact Hr | lia |].
  unfold decode_field. rewrite Hu. cbn [bind]. fold at_type.
  rewrite Hd. cbn [bind]. rewrite Ht. cbn [bind].
  change (TYPE_STRING =? TYPE_INT64) with false.
  change (TYPE_STRING =? TYPE_UINT64) with false.
  change (TYPE_STRING =? TYPE_FLOAT64) with false.
  change (TYPE_STRING =? TYPE_STRING) with true. cbv iota.
  rewrite Hn. cbn [bind]. now rewrite Hs.
Qed.

Lemma decode_invalid_string_raises_witness :
  (* "a" = string of the three bytes ED A0 80, an encoded surrogate *)
  decode_message [x00; x00; x00; x0b;
                  x00; x01; x61; x04; x00; x00; x00; x03; xed; xa0; x80]
  = Raise UnicodeDecodeError.
Proof.
  apply (decode_invalid_string_raises
           [x00; x00; x00; x0b;
            x00; x01; x61; x04; x00; x00; x00; x03; xed; xa0; x80]
           [x00; x01; x61; x04; x00; x00; x00; x03; xed; xa0; x80]
           0 [] 1 [97] 3 UnicodeDecodeError).
  - exists 11. repeat split; vm_compute; try reflexivity; discriminate.
  - apply reaches_start.
  - vm_compute. reflexivity.
  - vm_compute. reflexivity.
  - vm_compute. reflexivity.
  - vm_compute. reflexivity.
  - vm_compute. reflexivity.
Defined.
